(** * Summary measures for ergodic Markov chains

    A shallow embedding of [pysal/spatial_dynamics/markov/ergodic.py]: the
    two functions [steady_state] and [fmpt], over the numpy operations they
    call.

    Numbers.  A float64 is read as a real number: arithmetic is exact, there
    is no rounding and no overflow.  What numpy does on a division by zero is
    kept: it raises nothing and stores an infinity or a NaN, so the result
    of a division is an [npfloat].  A complex128 is a pair of reals; the
    eigen-solver answers with float64 arrays when every eigenvalue is real
    and with complex128 arrays otherwise, and [steady_state] runs at either
    element type.

    Linear algebra.  [numpy.linalg.eig] and [numpy.linalg.inv] are not part
    of the repository.  They are taken as a backend [LinAlg], and the
    theorems assume of it only the documented contract of the two routines,
    at the one matrix the call is made on ([eig_ok], [inv_ok]). *)

From Stdlib Require Import Reals Lra Lia List Bool Arith.
Import ListNotations.
Open Scope R_scope.

(** ** Exceptions and results *)

Inductive exn : Type :=
| LinAlgError
| ValueError
| IndexError
| TypeError.

Inductive result (A : Type) : Type :=
| Ok (a : A)
| Raise (e : exn).

Arguments Ok {A} a.
Arguments Raise {A} e.

Definition bind {A B : Type} (r : result A) (f : A -> result B) : result B :=
  match r with
  | Ok a => f a
  | Raise e => Raise e
  end.

Notation "x <- r ;; k" := (bind r (fun x => k))
  (at level 61, r at next level, right associativity).

(** [for x in range(n): s = body(x, s)], an exception leaving the loop. *)
Definition for_range {S : Type} (n : nat) (body : nat -> S -> result S)
    (s : S) : result S :=
  fold_left (fun acc i => s' <- acc ;; body i s') (seq 0 n) (Ok s).

(** ** Numbers *)

Definition Reqb (x y : R) : bool := if Req_dec_T x y then true else false.
Definition Rgtb (x y : R) : bool := if Rlt_dec y x then true else false.

(** The value a float64 division leaves behind. *)
Inductive npfloat : Type :=
| Fin (x : R)
| Inf          (* an infinity, of either sign *)
| NaN.

Definition nonfinite (y : npfloat) : Prop := y = Inf \/ y = NaN.

(** [x / y] on float64 scalars and arrays: never raises. *)
Definition np_div (x y : R) : npfloat :=
  if Reqb y 0 then (if Reqb x 0 then NaN else Inf) else Fin (x / y).

Definition C : Type := (R * R)%type.

Definition Re (z : C) : R := fst z.
Definition Im (z : C) : R := snd z.
Definition RtoC (x : R) : C := (x, 0).
Definition C0 : C := (0, 0).
Definition Cadd (z w : C) : C := (Re z + Re w, Im z + Im w).
Definition Cmul (z w : C) : C :=
  (Re z * Re w - Im z * Im w, Re z * Im w + Im z * Re w).
Definition Cscale (a : R) (z : C) : C := (a * Re z, a * Im z).
Definition Cnorm2 (z : C) : R := Re z * Re z + Im z * Im z.
Definition Cdiv (z w : C) : C :=
  ((Re z * Re w + Im z * Im w) / Cnorm2 w,
   (Im z * Re w - Re z * Im w) / Cnorm2 w).

Definition Ceqb (z w : C) : bool := Reqb (Re z) (Re w) && Reqb (Im z) (Im w).

(** numpy orders complex scalars lexicographically, real part first. *)
Definition Cgtb (z w : C) : bool :=
  Rgtb (Re z) (Re w) || (Reqb (Re z) (Re w) && Rgtb (Im z) (Im w)).

Definition npcomplex : Type := (npfloat * npfloat)%type.

(** [z / w] on complex128: a zero divisor divides both parts by zero. *)
Definition np_cdiv (z w : C) : npcomplex :=
  if Ceqb w C0 then (np_div (Re z) 0, np_div (Im z) 0)
  else (Fin (Re (Cdiv z w)), Fin (Im (Cdiv z w))).

(** An element type of numpy arrays, with what [steady_state] asks of it:
    [0], [+], [>], [==] and [/], the last with results in [V]. *)
Record dtype (T V : Type) : Type := {
  dt_zero : T;
  dt_add : T -> T -> T;
  dt_gtb : T -> T -> bool;
  dt_eqb : T -> T -> bool;
  dt_div : T -> T -> V
}.

Arguments dt_zero {T V} d.
Arguments dt_add {T V} d _ _.
Arguments dt_gtb {T V} d _ _.
Arguments dt_eqb {T V} d _ _.
Arguments dt_div {T V} d _ _.

Definition float64 : dtype R npfloat :=
  {| dt_zero := 0; dt_add := Rplus; dt_gtb := Rgtb; dt_eqb := Reqb;
     dt_div := np_div |}.

Definition complex128 : dtype C npcomplex :=
  {| dt_zero := C0; dt_add := Cadd; dt_gtb := Cgtb; dt_eqb := Ceqb;
     dt_div := np_cdiv |}.

(** ** Dense matrices *)

Definition matrix (A : Type) : Type := list (list A).
Definition rmat : Type := matrix R.
Definition cmat : Type := matrix C.
Definition fmat : Type := matrix npfloat.

Definition nrows {A} (M : matrix A) : nat := length M.
Definition ncols {A} (M : matrix A) : nat := length (hd [] M).
Definition shape {A} (M : matrix A) : nat * nat := (nrows M, ncols M).

(** [n] rows, each of length [m]. *)
Definition is_mat {A} (n m : nat) (M : matrix A) : Prop :=
  length M = n /\ Forall (fun r => length r = m) M.

Definition mk_mat {A} (n m : nat) (f : nat -> nat -> A) : matrix A :=
  map (fun i => map (fun j => f i j) (seq 0 m)) (seq 0 n).

(** Entry [(i,j)], read as 0 outside the matrix. *)
Definition mget (M : rmat) (i j : nat) : R := nth j (nth i M []) 0.

(** [M[i,j]] as the program reads it. *)
Definition np_get {A} (M : matrix A) (i j : nat) : result A :=
  match nth_error M i with
  | Some r => match nth_error r j with
              | Some x => Ok x
              | None => Raise IndexError
              end
  | None => Raise IndexError
  end.

Fixpoint list_set {A} (l : list A) (i : nat) (x : A) : option (list A) :=
  match l, i with
  | [], _ => None
  | _ :: t, O => Some (x :: t)
  | h :: t, S i' => option_map (cons h) (list_set t i' x)
  end.

(** [M[i,j] = x]. *)
Definition np_set {A} (M : matrix A) (i j : nat) (x : A) : result (matrix A) :=
  match nth_error M i with
  | Some r => match list_set r j x with
              | Some r' => match list_set M i r' with
                           | Some M' => Ok M'
                           | None => Raise IndexError
                           end
              | None => Raise IndexError
              end
  | None => Raise IndexError
  end.

(** [d[:,i]]. *)
Fixpoint np_col {A} (M : matrix A) (i : nat) : result (list A) :=
  match M with
  | [] => Ok []
  | r :: M' => match nth_error r i with
               | Some x => t <- np_col M' i ;; Ok (x :: t)
               | None => Raise IndexError
               end
  end.

Fixpoint bigsum (n : nat) (f : nat -> R) : R :=
  match n with
  | O => 0
  | S n' => bigsum n' f + f n'
  end.

Definition np_transpose (M : rmat) : rmat :=
  mk_mat (ncols M) (nrows M) (fun i j => mget M j i).

Definition np_identity (k : nat) : rmat :=
  mk_mat k k (fun i j => if Nat.eqb i j then 1 else 0).

(** [A + B] and [A - B], entry by entry, on operands of one shape. *)
Definition madd (A B : rmat) : rmat :=
  mk_mat (nrows A) (ncols A) (fun i j => mget A i j + mget B i j).

Definition msub (A B : rmat) : rmat :=
  mk_mat (nrows A) (ncols A) (fun i j => mget A i j - mget B i j).

Definition mmul (A B : rmat) : rmat :=
  mk_mat (nrows A) (ncols B)
    (fun i j => bigsum (ncols A) (fun l => mget A i l * mget B l j)).

(** The product of [n] copies of [P]; numpy reaches it by repeated
    squaring, which in exact arithmetic gives the same matrix. *)
Fixpoint mpow (P : rmat) (n : nat) : rmat :=
  match n with
  | O => np_identity (nrows P)
  | S n' => mmul P (mpow P n')
  end.

Definition is_squareb {A} (M : matrix A) : bool :=
  forallb (fun r => Nat.eqb (length r) (length M)) M.

(** [P ** n] on a [numpy.matrix]: the matrix power, refused on a matrix that
    is not square. *)
Definition np_matrix_power (P : rmat) (n : nat) : result rmat :=
  if is_squareb P then Ok (mpow P n) else Raise ValueError.

(** [numpy.zeros_like(Z)]: zeros in the shape of [Z]. *)
Definition np_zeros_like {A} (Z : matrix A) : fmat :=
  map (map (fun _ => Fin 0)) Z.

(** ** Python builtins *)

Section Builtins.

Context {T V : Type} (dt : dtype T V).

(** [max(v)]: the first of the greatest items; [ValueError] on an empty
    sequence. *)
Definition py_max (v : list T) : result T :=
  match v with
  | [] => Raise ValueError
  | x :: t => Ok (fold_left (fun m y => if dt_gtb dt y m then y else m) t x)
  end.

(** [v.index(x)]: the first position holding [x]. *)
Fixpoint py_index (v : list T) (x : T) : result nat :=
  match v with
  | [] => Raise ValueError
  | y :: t => if dt_eqb dt y x then Ok O else i <- py_index t x ;; Ok (S i)
  end.

(** [sum(x)]: left to right, from 0. *)
Definition py_sum (x : list T) : T := fold_left (dt_add dt) x (dt_zero dt).

End Builtins.

(** ** The linear-algebra backend *)

(** What [numpy.linalg.eig] returns on a real matrix: eigenvalues [w] and
    a matrix [v] of eigenvectors, both of real type when every eigenvalue
    is real and both of complex type otherwise. *)
Inductive eigen : Type :=
| EigReal (w : list R) (v : rmat)
| EigComplex (w : list C) (v : cmat).

Class LinAlg : Type := {
  la_eig : rmat -> result eigen;
  la_inv : rmat -> result rmat
}.

(** A vector of float64 or of complex128. *)
Inductive ndarray : Type :=
| RealArr (x : list npfloat)
| ComplexArr (x : list npcomplex).

(** ** The two functions of the module *)

(** Lines 43 to 48 of [steady_state], at one element type: the eigenvector
    of the greatest eigenvalue is selected, then divided by the sum of its
    entries. *)
Definition selected {T V : Type} (dt : dtype T V) (v : list T) (d : matrix T)
    : result (list T) :=
  mv <- py_max dt v ;;
  i <- py_index dt v mv ;;
  np_col d i.

Definition dominant {T V : Type} (dt : dtype T V) (v : list T) (d : matrix T)
    : result (list V) :=
  x <- selected dt v d ;;
  Ok (map (fun z => dt_div dt z (py_sum dt x)) x).

Section Ergodic.

Context {la : LinAlg}.

(** [v, d = la.eig(np.transpose(P))], then the selection and the
    normalisation at the element type of the answer. *)
Definition steady_state (P : rmat) : result ndarray :=
  vd <- la_eig (np_transpose P) ;;
  match vd with
  | EigReal v d => y <- dominant float64 v d ;; Ok (RealArr y)
  | EigComplex v d => y <- dominant complex128 v d ;; Ok (ComplexArr y)
  end.

(** [M[i,j] = (Z[j,j] - Z[i,j]) / A[j,j]]. *)
Definition fmpt_entry (A Z : rmat) (i j : nat) (M : fmat) : result fmat :=
  zjj <- np_get Z j j ;;
  zij <- np_get Z i j ;;
  ajj <- np_get A j j ;;
  np_set M i j (np_div (zjj - zij) ajj).

Definition fmpt (P : rmat) : result fmat :=
  A <- np_matrix_power P 1000 ;;
  let '(n, k) := shape A in
  let I := np_identity k in
  Z <- la_inv (madd (msub I P) A) ;;
  let M := np_zeros_like Z in
  for_range k (fun i M => for_range k (fun j M => fmpt_entry A Z i j M) M) M.

End Ergodic.

(** ** The contract of the backend *)

Definition inverse_of (k : nat) (B Z : rmat) : Prop :=
  is_mat k k Z /\ mmul Z B = np_identity k /\ mmul B Z = np_identity k.

Definition singular (k : nat) (B : rmat) : Prop :=
  ~ exists Z, inverse_of k B Z.

Section Contract.

Context {la : LinAlg}.

(** [numpy.linalg.inv]: the inverse, or [LinAlgError] on a singular
    matrix. *)
Definition inv_ok (k : nat) (B : rmat) : Prop :=
  match la_inv B with
  | Ok Z => inverse_of k B Z
  | Raise e => e = LinAlgError /\ singular k B
  end.

(** [(Z[j][j] - Z[i][j]) / A[j][j]]. *)
Definition fmpt_value (A Z : rmat) (i j : nat) : npfloat :=
  np_div (mget Z j j - mget Z i j) (mget A j j).

(** The steps of the fundamental-matrix method as the specification words
    them. *)
Definition fmpt_spec (P : rmat) : result fmat :=
  let A := mpow P 1000 in
  let k := ncols A in
  Z <- la_inv (madd (msub (np_identity k) P) A) ;;
  Ok (mk_mat k k
        (fun i j => np_div (mget Z j j - mget Z i j) (mget A j j))).

End Contract.

(** Entry [(i,j)] of a result of [fmpt]. *)
Definition fget (M : fmat) (i j : nat) : npfloat := nth j (nth i M []) NaN.

(** ** Eigen-decomposition *)

Definition Csum (n : nat) (f : nat -> C) : C :=
  (bigsum n (fun m => Re (f m)), bigsum n (fun m => Im (f m))).

(** Column [i] of [d], as a vector. *)
Definition column (d : cmat) (i : nat) : list C :=
  map (fun r => nth i r C0) d.

(** [x] is a non-zero vector with [M x = l x]. *)
Definition eigenpair (k : nat) (M : rmat) (l : C) (x : list C) : Prop :=
  length x = k /\
  (exists j, (j < k)%nat /\ nth j x C0 <> C0) /\
  forall j, (j < k)%nat ->
    Csum k (fun m => Cscale (mget M j m) (nth m x C0)) = Cmul l (nth j x C0).

(** [M - l I]. *)
Definition shift (k : nat) (M : rmat) (l : R) : rmat :=
  mk_mat k k (fun i j => mget M i j - (if Nat.eqb i j then l else 0)).

(** The eigenvalues and eigenvectors of an answer, as complex numbers. *)
Definition eig_values (r : eigen) : list C :=
  match r with
  | EigReal w _ => map RtoC w
  | EigComplex w _ => w
  end.

Definition eig_vectors (r : eigen) : cmat :=
  match r with
  | EigReal _ v => map (map RtoC) v
  | EigComplex _ v => v
  end.

Section EigContract.

Context {la : LinAlg}.

(** [numpy.linalg.eig] on a real [k] by [k] matrix: [k] eigenvalues and a
    matrix whose column [i] is an eigenvector for the eigenvalue [i]; every
    real eigenvalue of the matrix, that is every [l] with [M - l I]
    singular, is among the eigenvalues returned. *)
Definition eig_ok (k : nat) (M : rmat) : Prop :=
  exists r,
    la_eig M = Ok r /\
    length (eig_values r) = k /\ is_mat k k (eig_vectors r) /\
    (forall i, (i < k)%nat ->
       eigenpair k M (nth i (eig_values r) C0) (column (eig_vectors r) i)) /\
    (forall l : R, singular k (shift k M l) -> In (RtoC l) (eig_values r)).

End EigContract.

(** The eigenvector [steady_state] selects in an answer of
    [numpy.linalg.eig], as a vector of complex numbers. *)
Definition eig_selected (r : eigen) : result (list C) :=
  match r with
  | EigReal v d => x <- selected float64 v d ;; Ok (map RtoC x)
  | EigComplex v d => selected complex128 v d
  end.

(** No entry of the array is a finite number. *)
Definition all_nonfinite (y : ndarray) : Prop :=
  match y with
  | RealArr l => Forall nonfinite l
  | ComplexArr l => Forall (fun c => nonfinite (fst c) /\ nonfinite (snd c)) l
  end.

(** What a float64 division of [x] by zero stores: an infinity when [x] is
    not zero, a NaN when it is. *)
Definition zero_quotient (x : R) (q : npfloat) : Prop :=
  (x <> 0 -> q = Inf) /\ (x = 0 -> q = NaN).

(** The array [y] holds, entry by entry, the quotients by zero of the
    entries of [x]: a float64 array those of the entries, a complex128 array
    those of their real parts and those of their imaginary parts. *)
Definition zero_quotients (x : list C) (y : ndarray) : Prop :=
  match y with
  | RealArr l => Forall2 (fun z q => zero_quotient (Re z) q) x l
  | ComplexArr l =>
      Forall2 (fun z q => zero_quotient (Re z) (fst q) /\
                          zero_quotient (Im z) (snd q)) x l
  end.

(** The array [y] has the element type of the answer [r] of [eig]. *)
Definition same_dtype (r : eigen) (y : ndarray) : Prop :=
  match r, y with
  | EigReal _ _, RealArr _ => True
  | EigComplex _ _, ComplexArr _ => True
  | _, _ => False
  end.

(** ** Ergodic chains *)

(** Row-stochastic: entries at least 0, every row of sum 1. *)
Definition stochastic (k : nat) (P : rmat) : Prop :=
  is_mat k k P /\
  (forall i j, (i < k)%nat -> (j < k)%nat -> 0 <= mget P i j) /\
  (forall i, (i < k)%nat -> bigsum k (fun j => mget P i j) = 1).

(** Ergodic (regular): some power of [P] has only positive entries, which
    for a finite chain is to say that it is irreducible and aperiodic. *)
Definition ergodic (k : nat) (P : rmat) : Prop :=
  exists n, forall i j, (i < k)%nat -> (j < k)%nat -> 0 < mget (mpow P n) i j.

(** [u P = u]: the row vector [u] is invariant under the chain. *)
Definition invariant (k : nat) (P : rmat) (u : nat -> R) : Prop :=
  forall j, (j < k)%nat -> bigsum k (fun i => u i * mget P i j) = u j.

(** A stationary distribution of [P]: an invariant vector of sum 1. *)
Definition stationary (k : nat) (P : rmat) (pi : list R) : Prop :=
  length pi = k /\
  invariant k P (fun i => nth i pi 0) /\
  bigsum k (fun i => nth i pi 0) = 1.

Definition Cmod (z : C) : R := sqrt (Cnorm2 z).

(** Real and imaginary parts of the entries of a complex vector. *)
Definition vre (x : list C) (j : nat) : R := Re (nth j x C0).
Definition vim (x : list C) (j : nat) : R := Im (nth j x C0).

(** Entry [j] of [x / sum(x)] for a complex vector [x] of length [k], real
    part. *)
Definition normalised (k : nat) (x : list C) (j : nat) : R :=
  (vre x j * bigsum k (vre x) + vim x j * bigsum k (vim x)) /
  (bigsum k (vre x) * bigsum k (vre x) + bigsum k (vim x) * bigsum k (vim x)).

(** The sum of the entries of a vector. *)
Definition vsum (w : list R) : R := fold_right Rplus 0 w.

(** A vector of real numbers as a float64 array and as a complex128 array. *)
Definition real_arr (w : list R) : ndarray := RealArr (map Fin w).
Definition complex_arr (w : list R) : ndarray :=
  ComplexArr (map (fun x => (Fin x, Fin 0)) w).

(** ** Matrices and recorded backend answers used in the examples *)

(** A backend that replays one recorded answer of each routine. *)
Definition replay (eig : result eigen) (inv : result rmat) : LinAlg :=
  {| la_eig := fun _ => eig; la_inv := fun _ => inv |}.

(** The Land of Oz chain of the docstrings. *)
Definition P_oz : rmat :=
  [[1/2; 1/4; 1/4]; [1/2; 0; 1/2]; [1/4; 1/4; 1/2]].

Definition P_one : rmat := [[1]].

(** A chain that leaves state 0 for good: its powers have a zero on the
    diagonal. *)
Definition P_absorb : rmat := [[0; 1]; [0; 1]].

(** Not a transition matrix: its dominant eigenvector is [(1, -1)]. *)
Definition P_alt : rmat := [[1; -1]; [-1; 1]].

Definition I_2 : rmat := [[1; 0]; [0; 1]].

(** What the two routines answer on [P_one]. *)
Definition la_one : LinAlg :=
  replay (Ok (EigReal [1] [[1]])) (Ok [[1]]).

(** What the two routines answer on [P_absorb]: the eigenvalues 0 and 1 of
    its transpose with eigenvectors along [(1, -1)] and [(0, 1)], and the
    inverse of [I - P + A], which is the identity. *)
Definition la_absorb : LinAlg :=
  replay (Ok (EigReal [0; 1] [[1; 0]; [-1; 1]])) (Ok I_2).


(** The matrices [c Pi + p E1 + q E2] built on the spectral projectors of the
    Land of Oz chain: [Pi] has the stationary distribution in every row,
    [E1] and [E2] belong to the eigenvalues 1/4 and -1/4. *)
Definition oz_spec (c p q : R) : rmat :=
  [[2/5 * c + p / 2 + q / 10; 1/5 * c - q / 5; 2/5 * c - p / 2 + q / 10];
   [2/5 * c - 2/5 * q;        1/5 * c + 4/5 * q; 2/5 * c - 2/5 * q];
   [2/5 * c - p / 2 + q / 10; 1/5 * c - q / 5; 2/5 * c + p / 2 + q / 10]].

(** The eigenvalues of [I - P + P ** 1000] for the Land of Oz chain, next
    to the eigenvalue 1. *)
Definition oz_p : R := 1 - 1/4 + (1/4) ^ 1000.
Definition oz_q : R := 1 - (-1/4) + (-1/4) ^ 1000.

(** What the two routines answer on [P_oz]: the eigenvalues 1, 1/4 and
    -1/4 of its transpose, with eigenvectors along [(2, 1, 2)], [(1, 0, -1)]
    and [(1, -2, 1)], and the inverse of [I - P + A]. *)
Definition la_oz : LinAlg :=
  replay (Ok (EigReal [1; 1/4; -1/4]
                [[2/3; 1; 1]; [1/3; 0; -2]; [2/3; -1; 1]]))
         (Ok (oz_spec 1 (/ oz_p) (/ oz_q))).

(** The stationary distribution of the Land of Oz chain. *)
Definition pi_oz : list R := [2/5; 1/5; 2/5].

(** The first mean passage times of the docstring of [fmpt]. *)
Definition fmpt_oz : rmat := [[0; 4; 10/3]; [8/3; 0; 8/3]; [10/3; 4; 0]].

(** What the two routines answer on [P_alt]: the eigenvalues 2 and 0 of its
    transpose with eigenvectors along [(1, -1)] and [(1, 1)]. *)
Definition la_alt : LinAlg :=
  replay (Ok (EigReal [2; 0] [[1; 1]; [-1; 1]])) (Raise LinAlgError).

(** The tolerance within which two floats are read as approximately
    equal. *)
Definition tolerance : R := 1 / 10 ^ 9.

Definition approx (x y : R) : Prop := Rabs (x - y) <= tolerance.

(** ** Arrays as objects in memory

    The functions above work on the values of the arrays.  To tell what a
    call does to the arrays of its caller, the same statements are run on a
    memory of array objects: every numpy operation reads its operands there
    and allocates its result, [numpy.transpose] allocates a view that owns no
    data and refers to the array it was taken from, and [M[i,j] = x] writes
    into the object [M]. *)

Definition loc : Type := nat.

Inductive cell : Type :=
| CMat (m : rmat)                  (* a float64 matrix owning its data *)
| CView (owner : loc) (tr : bool)  (* a view on [owner], transposed if [tr] *)
| CFMat (m : fmat)                 (* a float64 matrix that may hold inf, nan *)
| CEig (r : eigen)                 (* the pair of arrays returned by [eig] *)
| CArr (y : ndarray).              (* a vector *)

Definition heap : Type := list cell.

(** A statement: it runs in a memory and leaves a result or an exception,
    and a memory. *)
Definition mem (A : Type) : Type := heap -> result A * heap.

Definition mret {A} (a : A) : mem A := fun h => (Ok a, h).

Definition mbind {A B} (c : mem A) (f : A -> mem B) : mem B :=
  fun h => match c h with
           | (Ok a, h') => f a h'
           | (Raise e, h') => (Raise e, h')
           end.

Notation "x <~ c ;; k" := (mbind c (fun x => k))
  (at level 61, c at next level, right associativity).

Definition mlift {A} (r : result A) : mem A := fun h => (r, h).

Definition alloc (c : cell) : mem loc := fun h => (Ok (length h), h ++ [c]).

(** The matrix an object stands for; a view is read through its owner. *)
Definition read_mat (l : loc) : mem rmat :=
  fun h =>
    (match nth_error h l with
     | Some (CMat m) => Ok m
     | Some (CView o tr) =>
         match nth_error h o with
         | Some (CMat m) => Ok (if tr then np_transpose m else m)
         | _ => Raise TypeError
         end
     | _ => Raise TypeError
     end, h).

(** [numpy.transpose(a)]: a new view on the data of [a]. *)
Definition view_transpose (l : loc) : mem loc :=
  fun h =>
    match nth_error h l with
    | Some (CMat _) => alloc (CView l true) h
    | Some (CView o tr) => alloc (CView o (negb tr)) h
    | _ => (Raise TypeError, h)
    end.

Definition heap_set (h : heap) (l : loc) (c : cell) : heap :=
  match list_set h l c with
  | Some h' => h'
  | None => h
  end.

Definition getitem (l : loc) (i j : nat) : mem R :=
  m <~ read_mat l ;; mlift (np_get m i j).

(** The object that holds [m] once [x] is stored at [i], [j].  The entries
    of a [CMat] are finite: with an infinity or a NaN stored in it the object
    is a [CFMat]. *)
Definition store_rmat (m : rmat) (i j : nat) (x : npfloat) : result cell :=
  match x with
  | Fin r => m' <- np_set m i j r ;; Ok (CMat m')
  | _ => m' <- np_set (map (map Fin) m) i j x ;; Ok (CFMat m')
  end.

(** [M[i,j] = x] on the object at [l].  Every array can be assigned into:
    the data of the object is overwritten in place, and an assignment into
    a view overwrites the data of its owner. *)
Definition setitem (l : loc) (i j : nat) (x : npfloat) : mem unit :=
  fun h =>
    match nth_error h l with
    | Some (CFMat m) =>
        match np_set m i j x with
        | Ok m' => (Ok tt, heap_set h l (CFMat m'))
        | Raise e => (Raise e, h)
        end
    | Some (CMat m) =>
        match store_rmat m i j x with
        | Ok c => (Ok tt, heap_set h l c)
        | Raise e => (Raise e, h)
        end
    | Some (CView o tr) =>
        match nth_error h o with
        | Some (CMat m) =>
            match (if tr then store_rmat m j i x else store_rmat m i j x) with
            | Ok c => (Ok tt, heap_set h o c)
            | Raise e => (Raise e, h)
            end
        | _ => (Raise TypeError, h)
        end
    | _ => (Raise TypeError, h)
    end.

Fixpoint mfor (l : list nat) (body : nat -> mem unit) : mem unit :=
  match l with
  | [] => mret tt
  | i :: t => _ <~ body i ;; mfor t body
  end.

Definition for_range_mem (n : nat) (body : nat -> mem unit) : mem unit :=
  mfor (seq 0 n) body.

Section ErgodicMem.

Context {la : LinAlg}.

Definition steady_state_mem (p : loc) : mem loc :=
  t <~ view_transpose p ;;
  Pt <~ read_mat t ;;
  vd <~ mlift (la_eig Pt) ;;
  _ <~ alloc (CEig vd) ;;
  y <~ mlift (match vd with
              | EigReal v d => y <- dominant float64 v d ;; Ok (RealArr y)
              | EigComplex v d =>
                  y <- dominant complex128 v d ;; Ok (ComplexArr y)
              end) ;;
  alloc (CArr y).

Definition fmpt_entry_mem (a z m : loc) (i j : nat) : mem unit :=
  zjj <~ getitem z j j ;;
  zij <~ getitem z i j ;;
  ajj <~ getitem a j j ;;
  setitem m i j (np_div (zjj - zij) ajj).

Definition fmpt_mem (p : loc) : mem loc :=
  P1 <~ read_mat p ;;
  A <~ mlift (np_matrix_power P1 1000) ;;
  a <~ alloc (CMat A) ;;
  A1 <~ read_mat a ;;
  let '(n, k) := shape A1 in
  i <~ alloc (CMat (np_identity k)) ;;
  I <~ read_mat i ;;
  P2 <~ read_mat p ;;
  t <~ alloc (CMat (msub I P2)) ;;
  T <~ read_mat t ;;
  A2 <~ read_mat a ;;
  b <~ alloc (CMat (madd T A2)) ;;
  B <~ read_mat b ;;
  Z <~ mlift (la_inv B) ;;
  z <~ alloc (CMat Z) ;;
  Z1 <~ read_mat z ;;
  m <~ alloc (CFMat (np_zeros_like Z1)) ;;
  _ <~ for_range_mem k (fun i =>
         for_range_mem k (fun j => fmpt_entry_mem a z m i j)) ;;
  mret m.

End ErgodicMem.

(** The memory [h'] keeps every object of [h]: it is [h] followed by the
    objects allocated since. *)
Definition keeps (h h' : heap) : Prop := exists new, h' = h ++ new.

(** A statement that, run in a memory keeping [h0], leaves a memory keeping
    [h0], with a result in [Q]. *)
Definition safe {A} (h0 : heap) (Q : A -> Prop) (c : mem A) : Prop :=
  forall h, keeps h0 h ->
    keeps h0 (snd (c h)) /\ forall a, fst (c h) = Ok a -> Q a.

(** While the loops of [fmpt] run, the memory is [h1] followed by the
    object [M]; the loops in memory leave in [M] what the loops on values
    return, and raise when they raise. *)
Definition loop_rel (h1 : heap) (pure : result fmat)
    (out : result unit * heap) : Prop :=
  exists M, snd out = h1 ++ [CFMat M] /\
            match pure with
            | Ok M' => fst out = Ok tt /\ M = M'
            | Raise e => fst out = Raise e
            end.

(** What [fmpt] returns on the Land of Oz matrix with the recorded inverse. *)
Definition M_oz : fmat :=
  mk_mat 3 3
    (fun i j =>
       np_div (mget (oz_spec 1 (/ oz_p) (/ oz_q)) j j
               - mget (oz_spec 1 (/ oz_p) (/ oz_q)) i j)
              (mget (mpow P_oz 1000) j j)).

(** ** Further chains and eigen-solver answers *)

(** The two-state chain that leaves state 0 with probability [a] and state
    1 with probability [b]. *)
Definition P_two (a b : R) : rmat := [[1 - a; a]; [b; 1 - b]].

(** What the two routines answer on [P_two (1/2) (1/2)]: the eigenvalues 1
    and 0 of its transpose with eigenvectors along [(1, 1)] and [(1, -1)],
    and the inverse of [I - P + A], which is the identity. *)
Definition la_half : LinAlg :=
  replay (Ok (EigReal [1; 0] [[1; 1]; [1; -1]])) (Ok I_2).

(** The matrix [d] with its column [i] multiplied by the entry [i] of
    [cs]: another choice of length and sign for every eigenvector. *)
Definition scale_cols (cs : list R) (d : rmat) : rmat :=
  map (fun r => map (fun cx => fst cx * snd cx) (combine cs r)) d.

(** The answer of [la_oz] with other lengths and signs for the
    eigenvectors. *)
Definition la_oz_scaled : LinAlg :=
  replay (Ok (EigReal [1; 1/4; -1/4]
                (scale_cols [3; -1; 2]
                   [[2/3; 1; 1]; [1/3; 0; -2]; [2/3; -1; 1]])))
         (Ok (oz_spec 1 (/ oz_p) (/ oz_q))).

(** The matrices [c Pi + q (I - Pi)] built on the spectral projector of the
    two-state chain [P_two a b]: [Pi] has the stationary distribution
    [b / (a + b), a / (a + b)] in both rows. *)
Definition two_spec (a b c q : R) : rmat :=
  [[c * (b / (a + b)) + q * (a / (a + b));
    c * (a / (a + b)) - q * (a / (a + b))];
   [c * (b / (a + b)) - q * (b / (a + b));
    c * (a / (a + b)) + q * (b / (a + b))]].
(* ================================================================== *)
(** * Theorems *)

(** ** Lists and tabulated matrices *)

Lemma nth_map_seq {A} (f : nat -> A) (d : A) (n s i : nat) :
  (i < n)%nat -> nth i (map f (seq s n)) d = f (s + i)%nat.
Proof.
  revert s i. induction n as [|n IH]; intros s i Hi; [lia|].
  destruct i as [|i]; simpl.
  - f_equal. lia.
  - rewrite IH by lia. f_equal. lia.
Qed.

Lemma nth_error_map_seq {A} (f : nat -> A) (n s i : nat) :
  (i < n)%nat -> nth_error (map f (seq s n)) i = Some (f (s + i)%nat).
Proof.
  revert s i. induction n as [|n IH]; intros s i Hi; [lia|].
  destruct i as [|i]; simpl.
  - do 2 f_equal. lia.
  - rewrite IH by lia. do 2 f_equal. lia.
Qed.

Lemma map_seq_ext {A} (f g : nat -> A) (n s : nat) :
  (forall i, (s <= i < s + n)%nat -> f i = g i) ->
  map f (seq s n) = map g (seq s n).
Proof.
  intros H. apply map_ext_in. intros i Hi. apply in_seq in Hi. apply H. lia.
Qed.

Lemma list_set_map_seq {A} (f : nat -> A) (n s i : nat) (x : A) :
  (i < n)%nat ->
  list_set (map f (seq s n)) i x =
  Some (map (fun a => if Nat.eqb a (s + i) then x else f a) (seq s n)).
Proof.
  revert s i. induction n as [|n IH]; intros s i Hi; [lia|].
  destruct i as [|i]; simpl.
  - rewrite Nat.add_0_r, Nat.eqb_refl. do 2 f_equal.
    apply map_seq_ext. intros a Ha.
    destruct (Nat.eqb_spec a s); [lia | reflexivity].
  - rewrite IH by lia. replace (s + S i)%nat with (S s + i)%nat by lia.
    destruct (Nat.eqb_spec s (S s + i)); [lia | reflexivity].
Qed.

Lemma mk_mat_ext {A} (n m : nat) (f g : nat -> nat -> A) :
  (forall i j, (i < n)%nat -> (j < m)%nat -> f i j = g i j) ->
  mk_mat n m f = mk_mat n m g.
Proof.
  intros H. unfold mk_mat. apply map_seq_ext. intros i Hi.
  apply map_seq_ext. intros j Hj. apply H; lia.
Qed.

Lemma is_mat_mk_mat {A} (n m : nat) (f : nat -> nat -> A) :
  is_mat n m (mk_mat n m f).
Proof.
  split.
  - unfold mk_mat. now rewrite length_map, length_seq.
  - apply Forall_forall. intros r Hr. unfold mk_mat in Hr.
    apply in_map_iff in Hr. destruct Hr as [i [<- _]].
    now rewrite length_map, length_seq.
Qed.

Lemma nth_mk_mat {A} (n m : nat) (f : nat -> nat -> A) (i : nat) :
  (i < n)%nat -> nth i (mk_mat n m f) [] = map (fun j => f i j) (seq 0 m).
Proof. intros Hi. unfold mk_mat. now rewrite nth_map_seq. Qed.

Lemma mget_mk_mat (n m : nat) (f : nat -> nat -> R) (i j : nat) :
  (i < n)%nat -> (j < m)%nat -> mget (mk_mat n m f) i j = f i j.
Proof.
  intros Hi Hj. unfold mget. rewrite nth_mk_mat by assumption.
  now rewrite nth_map_seq.
Qed.

Lemma fget_mk_mat (n m : nat) (f : nat -> nat -> npfloat) (i j : nat) :
  (i < n)%nat -> (j < m)%nat -> fget (mk_mat n m f) i j = f i j.
Proof.
  intros Hi Hj. unfold fget. rewrite nth_mk_mat by assumption.
  now rewrite nth_map_seq.
Qed.

Lemma nrows_mk_mat {A} (n m : nat) (f : nat -> nat -> A) :
  nrows (mk_mat n m f) = n.
Proof. unfold nrows, mk_mat. now rewrite length_map, length_seq. Qed.

Lemma ncols_mk_mat {A} (n m : nat) (f : nat -> nat -> A) :
  (0 < n)%nat -> ncols (mk_mat n m f) = m.
Proof.
  intros Hn. unfold ncols, mk_mat. destruct n; [lia|]. simpl.
  now rewrite length_map, length_seq.
Qed.

Lemma is_mat_nrows {A} (n m : nat) (M : matrix A) : is_mat n m M -> nrows M = n.
Proof. now intros [H _]. Qed.

Lemma is_mat_ncols {A} (n m : nat) (M : matrix A) :
  is_mat n m M -> (0 < n)%nat -> ncols M = m.
Proof.
  intros [Hn Hr] H0. unfold ncols. destruct M as [|r M]; simpl in *; [lia|].
  now inversion Hr.
Qed.

Lemma is_mat_row {A} (n m : nat) (M : matrix A) (i : nat) :
  is_mat n m M -> (i < n)%nat -> length (nth i M []) = m.
Proof.
  intros [Hn Hr] Hi. rewrite Forall_forall in Hr. apply Hr, nth_In. lia.
Qed.

(** A well-shaped matrix is the table of its entries. *)
Lemma is_mat_tabulate (n m : nat) (M : rmat) :
  is_mat n m M -> M = mk_mat n m (mget M).
Proof.
  intros HM. apply (nth_ext _ _ [] []).
  - rewrite (proj1 HM). unfold mk_mat. now rewrite length_map, length_seq.
  - intros i Hi. rewrite (proj1 HM) in Hi. rewrite nth_mk_mat by assumption.
    apply (nth_ext _ _ 0 0).
    + rewrite (is_mat_row n m) by assumption.
      now rewrite length_map, length_seq.
    + intros j Hj. rewrite (is_mat_row n m) in Hj by assumption.
      now rewrite nth_map_seq.
Qed.

Lemma mat_ext (n m : nat) (M N : rmat) :
  is_mat n m M -> is_mat n m N ->
  (forall i j, (i < n)%nat -> (j < m)%nat -> mget M i j = mget N i j) ->
  M = N.
Proof.
  intros HM HN H. rewrite (is_mat_tabulate n m M HM), (is_mat_tabulate n m N HN).
  now apply mk_mat_ext.
Qed.

Lemma np_get_is_mat (n m : nat) (M : rmat) (i j : nat) :
  is_mat n m M -> (i < n)%nat -> (j < m)%nat -> np_get M i j = Ok (mget M i j).
Proof.
  intros HM Hi Hj. rewrite (is_mat_tabulate n m M HM) at 1.
  unfold np_get, mk_mat. rewrite nth_error_map_seq by assumption.
  now rewrite nth_error_map_seq.
Qed.

Lemma np_set_mk_mat {A} (n m : nat) (f : nat -> nat -> A) (i j : nat) (x : A) :
  (i < n)%nat -> (j < m)%nat ->
  np_set (mk_mat n m f) i j x =
  Ok (mk_mat n m (fun a b => if Nat.eqb a i && Nat.eqb b j then x else f a b)).
Proof.
  intros Hi Hj. unfold np_set, mk_mat.
  rewrite nth_error_map_seq by assumption.
  rewrite list_set_map_seq by assumption.
  rewrite list_set_map_seq by assumption. simpl. f_equal.
  apply map_seq_ext. intros a Ha. destruct (Nat.eqb_spec a i) as [->|Hne].
  - reflexivity.
  - simpl. reflexivity.
Qed.

Lemma map_const_seq {A B} (c : B) (l : list A) (s : nat) :
  map (fun _ => c) l = map (fun _ => c) (seq s (length l)).
Proof.
  revert s. induction l as [|a l IH]; intros s; simpl; [reflexivity|].
  f_equal. apply IH.
Qed.

Lemma np_zeros_like_is_mat {A} (n m : nat) (Z : matrix A) :
  is_mat n m Z -> np_zeros_like Z = mk_mat n m (fun _ _ => Fin 0).
Proof.
  intros [Hn Hr]. unfold np_zeros_like, mk_mat.
  rewrite <- Hn, <- (map_const_seq _ Z 0).
  apply map_ext_in. intros r Hin. rewrite Forall_forall in Hr.
  rewrite <- (Hr r Hin). apply map_const_seq.
Qed.

Lemma for_range_S {S : Type} (n : nat) (body : nat -> S -> result S) (s : S) :
  for_range (Datatypes.S n) body s = (s' <- for_range n body s ;; body n s').
Proof.
  unfold for_range. rewrite seq_S, fold_left_app. reflexivity.
Qed.

(** ** Shapes of the matrices [fmpt] builds *)

Lemma is_squareb_is_mat {A} (k : nat) (P : matrix A) :
  is_mat k k P -> is_squareb P = true.
Proof.
  intros [Hn Hr]. unfold is_squareb. apply forallb_forall. intros r Hin.
  rewrite Forall_forall in Hr. rewrite (Hr r Hin), Hn. apply Nat.eqb_refl.
Qed.

Lemma is_mat_0 {A} (m : nat) (M : matrix A) : is_mat 0 m M -> M = [].
Proof. intros [Hn _]. now destruct M. Qed.

Lemma is_mat_mmul (k : nat) (A B : rmat) :
  is_mat k k A -> is_mat k k B -> is_mat k k (mmul A B).
Proof.
  intros HA HB. unfold mmul. rewrite (is_mat_nrows k k A HA).
  destruct k as [|k].
  - split; [reflexivity | constructor].
  - rewrite (is_mat_ncols (S k) (S k) B HB) by lia. apply is_mat_mk_mat.
Qed.

Lemma is_mat_identity (k : nat) : is_mat k k (np_identity k).
Proof. apply is_mat_mk_mat. Qed.

Lemma is_mat_mpow (k : nat) (P : rmat) (n : nat) :
  is_mat k k P -> is_mat k k (mpow P n).
Proof.
  intros HP. induction n as [|n IH]; simpl.
  - rewrite (is_mat_nrows k k P HP). apply is_mat_identity.
  - now apply is_mat_mmul.
Qed.

Lemma shape_is_mat {A} (k : nat) (M : matrix A) :
  is_mat k k M -> shape M = (k, k).
Proof.
  intros HM. unfold shape. rewrite (is_mat_nrows k k M HM).
  destruct k as [|k].
  - now rewrite (is_mat_0 0 M HM).
  - now rewrite (is_mat_ncols (S k) (S k) M HM) by lia.
Qed.

Lemma ncols_is_mat {A} (k : nat) (M : matrix A) : is_mat k k M -> ncols M = k.
Proof. intros HM. now apply shape_is_mat in HM; inversion HM. Qed.

(** ** The double loop of [fmpt] *)

Section FmptLoop.

Variables (k : nat) (A Z : rmat).
Hypothesis HA : is_mat k k A.
Hypothesis HZ : is_mat k k Z.

Lemma fmpt_entry_mk_mat (f : nat -> nat -> npfloat) (i j : nat) :
  (i < k)%nat -> (j < k)%nat ->
  fmpt_entry A Z i j (mk_mat k k f) =
  Ok (mk_mat k k
        (fun a b => if Nat.eqb a i && Nat.eqb b j then fmpt_value A Z i j else f a b)).
Proof.
  intros Hi Hj. unfold fmpt_entry.
  rewrite (np_get_is_mat k k Z j j HZ Hj Hj). simpl.
  rewrite (np_get_is_mat k k Z i j HZ Hi Hj). simpl.
  rewrite (np_get_is_mat k k A j j HA Hj Hj). simpl.
  now apply np_set_mk_mat.
Qed.

Lemma fmpt_inner_loop (f : nat -> nat -> npfloat) (i n : nat) :
  (i < k)%nat -> (n <= k)%nat ->
  for_range n (fun j M => fmpt_entry A Z i j M) (mk_mat k k f) =
  Ok (mk_mat k k
        (fun a b => if Nat.eqb a i && Nat.ltb b n then fmpt_value A Z i b else f a b)).
Proof.
  intros Hi. induction n as [|n IH]; intros Hn.
  - unfold for_range. simpl. f_equal. apply mk_mat_ext. intros a b _ _.
    now rewrite andb_false_r.
  - rewrite for_range_S, IH by lia. simpl.
    rewrite fmpt_entry_mk_mat by lia. f_equal.
    apply mk_mat_ext. intros a b _ _.
    destruct (Nat.eqb_spec a i) as [->|Hai]; simpl; [|reflexivity].
    destruct (Nat.eqb_spec b n) as [->|Hbn].
    + now rewrite (proj2 (Nat.ltb_lt n (S n))) by lia.
    + destruct (Nat.ltb_spec b n), (Nat.ltb_spec b (S n)); try lia; reflexivity.
Qed.

Lemma fmpt_outer_loop (f : nat -> nat -> npfloat) (n : nat) :
  (n <= k)%nat ->
  for_range n
    (fun i M => for_range k (fun j M => fmpt_entry A Z i j M) M)
    (mk_mat k k f) =
  Ok (mk_mat k k (fun a b => if Nat.ltb a n then fmpt_value A Z a b else f a b)).
Proof.
  induction n as [|n IH]; intros Hn.
  - unfold for_range. reflexivity.
  - rewrite for_range_S, IH by lia. simpl.
    rewrite fmpt_inner_loop by lia. f_equal.
    apply mk_mat_ext. intros a b Ha Hb.
    rewrite (proj2 (Nat.ltb_lt b k) Hb), andb_true_r.
    destruct (Nat.eqb_spec a n) as [->|Han].
    + now rewrite (proj2 (Nat.ltb_lt n (S n))) by lia.
    + destruct (Nat.ltb_spec a n), (Nat.ltb_spec a (S n)); try lia; reflexivity.
Qed.

Lemma fmpt_loops :
  for_range k
    (fun i M => for_range k (fun j M => fmpt_entry A Z i j M) M)
    (np_zeros_like Z) =
  Ok (mk_mat k k (fmpt_value A Z)).
Proof.
  rewrite (np_zeros_like_is_mat k k Z HZ), fmpt_outer_loop by lia.
  f_equal. apply mk_mat_ext. intros a b Ha _.
  now rewrite (proj2 (Nat.ltb_lt a k) Ha).
Qed.

End FmptLoop.

Section FmptSteps.

Context {la : LinAlg}.

(** What [fmpt] reduces to once the shapes are known. *)
Lemma fmpt_unfold (k : nat) (P : rmat) :
  is_mat k k P ->
  fmpt P =
  (Z <- la_inv (madd (msub (np_identity k) P) (mpow P 1000)) ;;
   for_range k
     (fun i M => for_range k
                   (fun j M => fmpt_entry (mpow P 1000) Z i j M) M)
     (np_zeros_like Z)).
Proof.
  intros HP. unfold fmpt, np_matrix_power.
  rewrite (is_squareb_is_mat k P HP).
  cbv beta iota delta [bind].
  rewrite (shape_is_mat k (mpow P 1000) (is_mat_mpow k P 1000 HP)).
  reflexivity.
Qed.

Lemma fmpt_eq_spec (k : nat) (P : rmat) :
  is_mat k k P ->
  inv_ok k (madd (msub (np_identity k) P) (mpow P 1000)) ->
  fmpt P = fmpt_spec P.
Proof.
  intros HP Hinv. rewrite (fmpt_unfold k P HP). unfold fmpt_spec.
  rewrite (ncols_is_mat k _ (is_mat_mpow k P 1000 HP)).
  unfold inv_ok in Hinv.
  destruct (la_inv (madd (msub (np_identity k) P) (mpow P 1000))) as [Z|e];
    [|reflexivity].
  cbv beta iota delta [bind].
  destruct Hinv as [HZ _].
  apply (fmpt_loops k (mpow P 1000) Z (is_mat_mpow k P 1000 HP) HZ).
Qed.

(** C8.  On a square matrix [P], with [numpy.linalg.inv] keeping its
    contract on [I - P + A], [fmpt] performs exactly the steps of the
    specification: [A] is the 1000th power of [P], [Z] the inverse of
    [I - P + A], and the entry [(i,j)] of the result is
    [(Z[j][j] - Z[i][j]) / A[j][j]]; when the inversion raises, so does
    [fmpt]. *)
Theorem fmpt_refines_spec (k : nat) (P : rmat) :
  is_mat k k P ->
  inv_ok k (madd (msub (np_identity k) P) (mpow P 1000)) ->
  fmpt P = fmpt_spec P.
Proof. apply fmpt_eq_spec. Qed.

End FmptSteps.

(** ** Deciding comparisons on given numbers *)

Lemma Reqb_true (x y : R) : x = y -> Reqb x y = true.
Proof. intros H. unfold Reqb. now destruct (Req_dec_T x y). Qed.

Lemma Reqb_false (x y : R) : x <> y -> Reqb x y = false.
Proof. intros H. unfold Reqb. now destruct (Req_dec_T x y). Qed.

Lemma Rgtb_true (x y : R) : y < x -> Rgtb x y = true.
Proof. intros H. unfold Rgtb. now destruct (Rlt_dec y x). Qed.

Lemma Rgtb_false (x y : R) : x <= y -> Rgtb x y = false.
Proof. intros H. unfold Rgtb. destruct (Rlt_dec y x); [lra | reflexivity]. Qed.

Ltac Rdecide :=
  repeat match goal with
  | |- context [Reqb ?x ?y] =>
      first [ rewrite (Reqb_true x y) by lra | rewrite (Reqb_false x y) by lra ]
  | |- context [Rgtb ?x ?y] =>
      first [ rewrite (Rgtb_true x y) by lra | rewrite (Rgtb_false x y) by lra ]
  end.

(** Equality of matrices and vectors of given numbers, entry by entry. *)
Ltac lists_lra :=
  lazymatch goal with
  | |- (_ :: _) = (_ :: _) => apply f_equal2; lists_lra
  | |- (_, _) = (_, _) => apply f_equal2; lists_lra
  | |- Fin _ = Fin _ => apply f_equal; lists_lra
  | |- Ok _ = Ok _ => apply f_equal; lists_lra
  | |- _ => first [reflexivity | lra]
  end.

Ltac mat_simpl :=
  unfold mmul, madd, msub, np_identity, np_transpose, shift, mk_mat, mget,
    nrows, ncols;
  simpl.

Ltac is_mat_tac :=
  split; [reflexivity | repeat constructor].

(** ** The diagonal of [fmpt] *)

Lemma np_div_same (x a : R) :
  np_div (x - x) a = if Reqb a 0 then NaN else Fin 0.
Proof.
  unfold np_div. rewrite (Reqb_true (x - x) 0) by lra.
  destruct (Reqb a 0); [reflexivity|]. f_equal. unfold Rdiv. lra.
Qed.

Section FmptResults.

Context {la : LinAlg}.

Lemma fmpt_Ok_entries (k : nat) (P : rmat) (M : fmat) :
  is_mat k k P ->
  inv_ok k (madd (msub (np_identity k) P) (mpow P 1000)) ->
  fmpt P = Ok M ->
  exists Z,
    la_inv (madd (msub (np_identity k) P) (mpow P 1000)) = Ok Z /\
    inverse_of k (madd (msub (np_identity k) P) (mpow P 1000)) Z /\
    M = mk_mat k k
          (fun i j => np_div (mget Z j j - mget Z i j) (mget (mpow P 1000) j j)).
Proof.
  intros HP Hinv HM. rewrite (fmpt_eq_spec k P HP Hinv) in HM.
  unfold fmpt_spec in HM.
  rewrite (ncols_is_mat k _ (is_mat_mpow k P 1000 HP)) in HM.
  unfold inv_ok in Hinv.
  destruct (la_inv (madd (msub (np_identity k) P) (mpow P 1000))) as [Z|e].
  - exists Z. cbv beta iota delta [bind] in HM. inversion HM. auto.
  - discriminate HM.
Qed.

Lemma fmpt_diag (k : nat) (P : rmat) (M : fmat) (j : nat) :
  is_mat k k P ->
  inv_ok k (madd (msub (np_identity k) P) (mpow P 1000)) ->
  fmpt P = Ok M ->
  (j < k)%nat ->
  fget M j j = if Reqb (mget (mpow P 1000) j j) 0 then NaN else Fin 0.
Proof.
  intros HP Hinv HM Hj.
  destruct (fmpt_Ok_entries k P M HP Hinv HM) as [Z [_ [_ ->]]].
  rewrite fget_mk_mat by assumption. apply np_div_same.
Qed.


End FmptResults.

(** ** The examples [P_one] and [P_absorb] *)

Lemma mpow_P_one (n : nat) : mpow P_one n = P_one.
Proof.
  induction n as [|n IH]; simpl.
  - unfold P_one. mat_simpl. lists_lra.
  - rewrite IH. unfold P_one. mat_simpl. lists_lra.
Qed.

Lemma mpow_P_absorb (n : nat) : mpow P_absorb (S n) = P_absorb.
Proof.
  induction n as [|n IH].
  - unfold P_absorb. simpl. mat_simpl. lists_lra.
  - change (mpow P_absorb (S (S n))) with (mmul P_absorb (mpow P_absorb (S n))).
    rewrite IH. unfold P_absorb. mat_simpl. lists_lra.
Qed.

Lemma is_mat_P_one : is_mat 1 1 P_one.
Proof. is_mat_tac. Qed.

Lemma is_mat_P_absorb : is_mat 2 2 P_absorb.
Proof. is_mat_tac. Qed.

Lemma inv_ok_P_one :
  @inv_ok la_one 1 (madd (msub (np_identity 1) P_one) (mpow P_one 1000)).
Proof.
  rewrite mpow_P_one. unfold inv_ok, inverse_of. simpl la_inv.
  repeat split; try (repeat constructor); unfold P_one; mat_simpl; lists_lra.
Qed.

Lemma inv_ok_P_absorb :
  @inv_ok la_absorb 2
    (madd (msub (np_identity 2) P_absorb) (mpow P_absorb 1000)).
Proof.
  rewrite (mpow_P_absorb 999). unfold inv_ok, inverse_of. simpl la_inv.
  repeat split; try (repeat constructor); unfold P_absorb, I_2;
    mat_simpl; lists_lra.
Qed.

Lemma fmpt_P_absorb :
  @fmpt la_absorb P_absorb = Ok [[NaN; Fin 1]; [Inf; Fin 0]].
Proof.
  rewrite (@fmpt_eq_spec la_absorb 2 P_absorb is_mat_P_absorb inv_ok_P_absorb).
  unfold fmpt_spec. rewrite (mpow_P_absorb 999).
  unfold P_absorb, I_2, la_absorb, replay, np_div. mat_simpl. unfold bind.
  Rdecide. lists_lra.
Qed.


(** ** Finite sums *)

Lemma bigsum_ext (n : nat) (f g : nat -> R) :
  (forall i, (i < n)%nat -> f i = g i) -> bigsum n f = bigsum n g.
Proof.
  induction n as [|n IH]; intros H; simpl; [reflexivity|].
  rewrite IH, H by auto with arith. reflexivity.
Qed.

Lemma bigsum_plus (n : nat) (f g : nat -> R) :
  bigsum n (fun i => f i + g i) = bigsum n f + bigsum n g.
Proof. induction n as [|n IH]; simpl; [|rewrite IH]; lra. Qed.

Lemma bigsum_minus (n : nat) (f g : nat -> R) :
  bigsum n (fun i => f i - g i) = bigsum n f - bigsum n g.
Proof. induction n as [|n IH]; simpl; [|rewrite IH]; lra. Qed.

Lemma bigsum_scal_l (n : nat) (c : R) (f : nat -> R) :
  bigsum n (fun i => c * f i) = c * bigsum n f.
Proof. induction n as [|n IH]; simpl; [|rewrite IH]; lra. Qed.

Lemma bigsum_scal_r (n : nat) (c : R) (f : nat -> R) :
  bigsum n (fun i => f i * c) = bigsum n f * c.
Proof. induction n as [|n IH]; simpl; [|rewrite IH]; lra. Qed.

Lemma bigsum_zero (n : nat) : bigsum n (fun _ => 0) = 0.
Proof. induction n as [|n IH]; simpl; [|rewrite IH]; lra. Qed.

Lemma bigsum_le (n : nat) (f g : nat -> R) :
  (forall i, (i < n)%nat -> f i <= g i) -> bigsum n f <= bigsum n g.
Proof.
  induction n as [|n IH]; intros H; simpl; [lra|].
  specialize (H n (Nat.lt_succ_diag_r n)) as Hn.
  assert (bigsum n f <= bigsum n g) by (apply IH; auto with arith). lra.
Qed.

Lemma bigsum_nonneg (n : nat) (f : nat -> R) :
  (forall i, (i < n)%nat -> 0 <= f i) -> 0 <= bigsum n f.
Proof. intros H. rewrite <- (bigsum_zero n). now apply bigsum_le. Qed.

Lemma bigsum_exchange (n m : nat) (f : nat -> nat -> R) :
  bigsum n (fun i => bigsum m (fun j => f i j)) =
  bigsum m (fun j => bigsum n (fun i => f i j)).
Proof.
  induction n as [|n IH]; simpl.
  - now rewrite bigsum_zero.
  - rewrite IH, <- bigsum_plus. reflexivity.
Qed.

(** Non-negative terms of sum 0 are all 0. *)
Lemma bigsum_eq_0 (n : nat) (f : nat -> R) :
  (forall i, (i < n)%nat -> 0 <= f i) -> bigsum n f = 0 ->
  forall i, (i < n)%nat -> f i = 0.
Proof.
  induction n as [|n IH]; intros Hf Hs i Hi; [lia|].
  simpl in Hs.
  assert (H1 : 0 <= bigsum n f) by (apply bigsum_nonneg; auto with arith).
  assert (H2 : 0 <= f n) by (apply Hf; lia).
  destruct (Nat.eq_dec i n) as [->|Hne]; [lra|].
  apply IH; [auto with arith | lra | lia].
Qed.

(** Terms bounded one by one, with equal sums, are equal one by one. *)
Lemma bigsum_le_eq (n : nat) (f g : nat -> R) :
  (forall i, (i < n)%nat -> f i <= g i) -> bigsum n f = bigsum n g ->
  forall i, (i < n)%nat -> f i = g i.
Proof.
  intros Hle Hs i Hi.
  assert (H : g i - f i = 0).
  { apply (bigsum_eq_0 n (fun i => g i - f i)); [| |assumption].
    - intros j Hj. specialize (Hle j Hj). lra.
    - rewrite bigsum_minus. lra. }
  lra.
Qed.

Lemma Rabs_bigsum (n : nat) (f : nat -> R) :
  Rabs (bigsum n f) <= bigsum n (fun i => Rabs (f i)).
Proof.
  induction n as [|n IH]; simpl.
  - rewrite Rabs_R0. lra.
  - eapply Rle_trans; [apply Rabs_triang|]. lra.
Qed.

Lemma bigsum_delta (n j : nat) (f : nat -> R) :
  (j < n)%nat ->
  bigsum n (fun i => if Nat.eqb i j then f i else 0) = f j.
Proof.
  induction n as [|n IH]; intros Hj; [lia|]. simpl.
  destruct (Nat.eqb_spec n j) as [->|Hne].
  - rewrite (bigsum_ext j _ (fun _ => 0)), bigsum_zero; [lra|].
    intros i Hi. destruct (Nat.eqb_spec i j); [lia | reflexivity].
  - rewrite IH by lia. lra.
Qed.

(** A sum of terms that are not all 0, all of one sign, is not 0. *)
Lemma bigsum_pos_exists (n : nat) (f : nat -> R) (j : nat) :
  (forall i, (i < n)%nat -> 0 <= f i) -> (j < n)%nat -> 0 < f j ->
  0 < bigsum n f.
Proof.
  intros Hf Hj Hpos.
  assert (H0 : 0 <= bigsum n f) by now apply bigsum_nonneg.
  destruct (Req_dec_T (bigsum n f) 0) as [Hz|Hnz]; [|lra].
  pose proof (bigsum_eq_0 n f Hf Hz j Hj). lra.
Qed.

(** Rewrite with an equation on a sum, whatever the eta-form of its body. *)
Ltac rewrite_sum H :=
  let T := type of H in
  match T with
  | _ = ?r =>
      match goal with
      | |- context [bigsum ?k ?f] =>
          let E := fresh in
          assert (E : bigsum k f = r) by exact H; rewrite E; clear E
      end
  end.

(** ** Entries of products and powers *)

Lemma mget_mmul (k : nat) (A B : rmat) (i j : nat) :
  is_mat k k A -> is_mat k k B -> (i < k)%nat -> (j < k)%nat ->
  mget (mmul A B) i j = bigsum k (fun l => mget A i l * mget B l j).
Proof.
  intros HA HB Hi Hj. unfold mmul.
  rewrite (is_mat_nrows k k A HA), (ncols_is_mat k A HA), (ncols_is_mat k B HB).
  now rewrite mget_mk_mat.
Qed.

Lemma mget_identity (k i j : nat) :
  (i < k)%nat -> (j < k)%nat ->
  mget (np_identity k) i j = if Nat.eqb i j then 1 else 0.
Proof. intros Hi Hj. unfold np_identity. now rewrite mget_mk_mat. Qed.

Lemma mget_mpow_S (k : nat) (P : rmat) (n i j : nat) :
  is_mat k k P -> (i < k)%nat -> (j < k)%nat ->
  mget (mpow P (S n)) i j =
  bigsum k (fun l => mget P i l * mget (mpow P n) l j).
Proof.
  intros HP Hi Hj. simpl. apply mget_mmul; auto using is_mat_mpow.
Qed.

Lemma mget_transpose (k : nat) (P : rmat) (i j : nat) :
  is_mat k k P -> (i < k)%nat -> (j < k)%nat ->
  mget (np_transpose P) i j = mget P j i.
Proof.
  intros HP Hi Hj. unfold np_transpose.
  rewrite (is_mat_nrows k k P HP), (ncols_is_mat k P HP).
  now rewrite mget_mk_mat.
Qed.

Lemma is_mat_transpose (k : nat) (P : rmat) :
  is_mat k k P -> is_mat k k (np_transpose P).
Proof.
  intros HP. unfold np_transpose.
  rewrite (is_mat_nrows k k P HP), (ncols_is_mat k P HP). apply is_mat_mk_mat.
Qed.

Lemma stochastic_mpow (k : nat) (P : rmat) (n : nat) :
  stochastic k P -> stochastic k (mpow P n).
Proof.
  intros [HP [Hpos Hrow]]. induction n as [|n [_ [IHpos IHrow]]].
  - split; [now apply is_mat_mpow|]. simpl. rewrite (is_mat_nrows k k P HP).
    split.
    + intros i j Hi Hj. rewrite mget_identity by assumption.
      destruct (Nat.eqb i j); lra.
    + intros i Hi.
      rewrite (bigsum_ext k _ (fun j => if Nat.eqb j i then 1 else 0)).
      * now rewrite (bigsum_delta k i (fun _ => 1)).
      * intros j Hj. rewrite mget_identity by assumption.
        now rewrite Nat.eqb_sym.
  - split; [now apply is_mat_mpow|]. split.
    + intros i j Hi Hj. rewrite (mget_mpow_S k) by assumption.
      apply bigsum_nonneg. intros l Hl.
      apply Rmult_le_pos; auto.
    + intros i Hi.
      rewrite (bigsum_ext k _
        (fun j => bigsum k (fun l => mget P i l * mget (mpow P n) l j))).
      * rewrite bigsum_exchange.
        rewrite (bigsum_ext k _ (fun l => mget P i l)); [now apply Hrow|].
        intros l Hl. rewrite bigsum_scal_l, IHrow by assumption. lra.
      * intros j Hj. now apply (mget_mpow_S k).
Qed.

(** ** Invariant vectors of an ergodic chain *)

Lemma invariant_mpow (k : nat) (P : rmat) (u : nat -> R) (n : nat) :
  is_mat k k P -> invariant k P u -> invariant k (mpow P n) u.
Proof.
  intros HP Hu. induction n as [|n IH]; intros j Hj.
  - simpl. rewrite (is_mat_nrows k k P HP).
    rewrite (bigsum_ext k _ (fun i => if Nat.eqb i j then u i else 0)).
    + now apply bigsum_delta.
    + intros i Hi. rewrite mget_identity by assumption.
      destruct (Nat.eqb i j); lra.
  - rewrite (bigsum_ext k _
      (fun i => bigsum k (fun l => u i * mget P i l * mget (mpow P n) l j))).
    + rewrite bigsum_exchange.
      rewrite (bigsum_ext k _ (fun l => u l * mget (mpow P n) l j)).
      * now apply IH.
      * intros l Hl. rewrite bigsum_scal_r. now rewrite (Hu l Hl).
    + intros i Hi. rewrite (mget_mpow_S k), <- bigsum_scal_l by assumption.
      apply bigsum_ext. intros l _. lra.
Qed.

Lemma invariant_lin (k : nat) (P : rmat) (u v : nat -> R) (c d : R) :
  invariant k P u -> invariant k P v ->
  invariant k P (fun i => c * u i + d * v i).
Proof.
  intros Hu Hv j Hj.
  rewrite (bigsum_ext k _
    (fun i => c * (u i * mget P i j) + d * (v i * mget P i j))).
  - rewrite bigsum_plus, !bigsum_scal_l, (Hu j Hj), (Hv j Hj). reflexivity.
  - intros i _. lra.
Qed.

(** Under a stochastic matrix with a positive first column, an invariant
    vector has all its entries of one sign. *)
Lemma invariant_one_sign_pos (k : nat) (Q : rmat) (u : nat -> R) :
  stochastic k Q ->
  (forall i, (i < k)%nat -> 0 < mget Q i 0) ->
  invariant k Q u ->
  (forall i, (i < k)%nat -> 0 <= u i) \/ (forall i, (i < k)%nat -> u i <= 0).
Proof.
  intros [HQ [Hpos Hrow]] Hcol Hu.
  destruct k as [|k]; [left; intros; lia|].
  set (t := fun j => bigsum (S k) (fun i => Rabs (u i) * mget Q i j)).
  assert (Hle : forall j, (j < S k)%nat -> Rabs (u j) <= t j).
  { intros j Hj. rewrite <- (Hu j Hj) at 1.
    eapply Rle_trans; [apply Rabs_bigsum|]. apply Req_le.
    apply bigsum_ext. intros i Hi.
    rewrite Rabs_mult, (Rabs_right (mget Q i j)); [reflexivity|].
    apply Rle_ge. now apply Hpos. }
  assert (Hsum : bigsum (S k) (fun j => Rabs (u j)) = bigsum (S k) t).
  { unfold t. rewrite bigsum_exchange. apply bigsum_ext. intros i Hi.
    rewrite bigsum_scal_l.
    replace (bigsum (S k) (mget Q i)) with 1 by (symmetry; exact (Hrow i Hi)).
    lra. }
  assert (H0 : Rabs (u 0%nat) = t 0%nat).
  { apply (bigsum_le_eq (S k) (fun j => Rabs (u j)) t Hle Hsum). lia. }
  rewrite <- (Hu 0%nat) in H0 by lia. unfold t in H0.
  destruct (Rle_lt_dec 0 (bigsum (S k) (fun i => u i * mget Q i 0))) as [Hs|Hs].
  - left. intros i Hi. rewrite Rabs_right in H0 by lra.
    assert (Hz : (Rabs (u i) - u i) * mget Q i 0 = 0).
    { apply (bigsum_eq_0 (S k) (fun i => (Rabs (u i) - u i) * mget Q i 0));
        [| |assumption].
      - intros l Hl. apply Rmult_le_pos; [|now apply Hpos; lia].
        pose proof (Rle_abs (u l)). lra.
      - rewrite (bigsum_ext _ _
          (fun i => Rabs (u i) * mget Q i 0 - u i * mget Q i 0)).
        + rewrite bigsum_minus. lra.
        + intros l _. lra. }
    specialize (Hcol i Hi).
    apply Rmult_integral in Hz. destruct Hz as [Hz|Hz]; [|lra].
    pose proof (Rabs_pos (u i)). lra.
  - right. intros i Hi. rewrite Rabs_left in H0 by lra.
    assert (Hz : (Rabs (u i) + u i) * mget Q i 0 = 0).
    { apply (bigsum_eq_0 (S k) (fun i => (Rabs (u i) + u i) * mget Q i 0));
        [| |assumption].
      - intros l Hl. apply Rmult_le_pos; [|now apply Hpos; lia].
        pose proof (Rle_abs (- u l)). rewrite Rabs_Ropp in H. lra.
      - rewrite (bigsum_ext _ _
          (fun i => Rabs (u i) * mget Q i 0 + u i * mget Q i 0)).
        + rewrite bigsum_plus. lra.
        + intros l _. lra. }
    specialize (Hcol i Hi).
    apply Rmult_integral in Hz. destruct Hz as [Hz|Hz]; [|lra].
    pose proof (Rabs_pos (u i)). lra.
Qed.

Section ErgodicChain.

Variables (k : nat) (P : rmat).
Hypothesis Hsto : stochastic k P.
Hypothesis Herg : ergodic k P.

Lemma invariant_one_sign (u : nat -> R) :
  invariant k P u ->
  (forall i, (i < k)%nat -> 0 <= u i) \/ (forall i, (i < k)%nat -> u i <= 0).
Proof.
  intros Hu. destruct Herg as [n Hn].
  apply (invariant_one_sign_pos k (mpow P n)).
  - now apply stochastic_mpow.
  - intros i Hi. apply Hn; lia.
  - apply invariant_mpow; [apply Hsto | assumption].
Qed.

Lemma invariant_sum_0 (u : nat -> R) :
  invariant k P u -> bigsum k u = 0 -> forall i, (i < k)%nat -> u i = 0.
Proof.
  intros Hu Hs i Hi. destruct (invariant_one_sign u Hu) as [H|H].
  - now apply (bigsum_eq_0 k u).
  - assert (- u i = 0); [|lra].
    apply (bigsum_eq_0 k (fun i => - u i)); [| |assumption].
    + intros j Hj. specialize (H j Hj). lra.
    + rewrite (bigsum_ext k _ (fun i => (-1) * u i)), bigsum_scal_l; [lra|].
      intros; lra.
Qed.

(** Two invariant vectors are proportional. *)
Lemma invariant_proportional (u v : nat -> R) :
  invariant k P u -> invariant k P v ->
  forall j, (j < k)%nat -> bigsum k v * u j = bigsum k u * v j.
Proof.
  intros Hu Hv j Hj.
  assert (H : bigsum k v * u j + (- bigsum k u) * v j = 0).
  { apply (invariant_sum_0
             (fun i => bigsum k v * u i + (- bigsum k u) * v i));
      [now apply invariant_lin | | assumption].
    rewrite bigsum_plus, !bigsum_scal_l. lra. }
  lra.
Qed.

(** An entry of an invariant vector has the sign of the sum. *)
Lemma invariant_times_sum (u : nat -> R) (j : nat) :
  invariant k P u -> (j < k)%nat -> 0 <= u j * bigsum k u.
Proof.
  intros Hu Hj. destruct (invariant_one_sign u Hu) as [H|H].
  - apply Rmult_le_pos; [now apply H | now apply bigsum_nonneg].
  - assert (bigsum k u <= 0).
    { rewrite <- (bigsum_zero k). now apply bigsum_le. }
    specialize (H j Hj). nra.
Qed.

End ErgodicChain.

(** ** The modulus of a complex number *)

Lemma Cnorm2_nonneg (z : C) : 0 <= Cnorm2 z.
Proof. unfold Cnorm2. nra. Qed.

Lemma Cmod_nonneg (z : C) : 0 <= Cmod z.
Proof. apply sqrt_pos. Qed.

Lemma Cmod_sqr (z : C) : Cmod z * Cmod z = Cnorm2 z.
Proof. apply sqrt_sqrt, Cnorm2_nonneg. Qed.

Lemma sqrt_le_bound (x y : R) : 0 <= y -> x <= y * y -> sqrt x <= y.
Proof.
  intros Hy Hxy. rewrite <- (sqrt_square y Hy). now apply sqrt_le_1_alt.
Qed.

Lemma Cnorm2_eq_0 (z : C) : Cnorm2 z = 0 -> z = C0.
Proof.
  destruct z as [a b]. unfold Cnorm2, C0. simpl. intros H.
  assert (a = 0) by nra. assert (b = 0) by nra. now subst.
Qed.

Lemma Cmod_pos (z : C) : z <> C0 -> 0 < Cmod z.
Proof.
  intros Hz. destruct (Cmod_nonneg z) as [H|H]; [assumption|].
  exfalso. apply Hz, Cnorm2_eq_0. rewrite <- Cmod_sqr, <- H. lra.
Qed.

Lemma cauchy_schwarz_2 (a b c d : R) :
  (a * c + b * d) * (a * c + b * d) <= (a * a + b * b) * (c * c + d * d).
Proof.
  assert (E : (a * a + b * b) * (c * c + d * d)
              - (a * c + b * d) * (a * c + b * d)
              = Rsqr (a * d - b * c)) by (unfold Rsqr; ring).
  pose proof (Rle_0_sqr (a * d - b * c)). lra.
Qed.

Lemma Cmod_add (z w : C) : Cmod (Cadd z w) <= Cmod z + Cmod w.
Proof.
  pose proof (Cmod_nonneg z) as Hz. pose proof (Cmod_nonneg w) as Hw.
  pose proof (Cmod_sqr z) as Sz. pose proof (Cmod_sqr w) as Sw.
  apply sqrt_le_bound; [lra|].
  destruct z as [a b], w as [c d]. unfold Cadd, Cnorm2 in *. simpl in *.
  set (m := Cmod (a, b)) in *. set (n := Cmod (c, d)) in *.
  assert (Hcs : (a * c + b * d) * (a * c + b * d) <= (m * n) * (m * n)).
  { replace (m * n * (m * n)) with ((m * m) * (n * n)) by ring.
    rewrite Sz, Sw. apply cauchy_schwarz_2. }
  assert (Hmn : 0 <= m * n) by now apply Rmult_le_pos.
  assert (Hdot : a * c + b * d <= m * n).
  { destruct (Rle_lt_dec (a * c + b * d) (m * n)) as [Hd|Hd]; [assumption|].
    exfalso. assert (m * n * (m * n) < (a * c + b * d) * (a * c + b * d)).
    { apply Rmult_le_0_lt_compat; assumption. }
    lra. }
  replace ((a + c) * (a + c) + (b + d) * (b + d))
    with ((a * a + b * b) + (c * c + d * d) + 2 * (a * c + b * d)) by ring.
  rewrite <- Sz, <- Sw. 
  replace ((m + n) * (m + n)) with (m * m + n * n + 2 * (m * n)) by ring.
  lra.
Qed.

Lemma Cmod_scale (a : R) (z : C) : 0 <= a -> Cmod (Cscale a z) = a * Cmod z.
Proof.
  intros Ha. unfold Cmod at 1.
  replace (Cnorm2 (Cscale a z)) with ((a * a) * Cnorm2 z)
    by (unfold Cnorm2, Cscale; simpl; ring).
  rewrite sqrt_mult; [|nra|apply Cnorm2_nonneg].
  now rewrite sqrt_square.
Qed.

Lemma Cmod_mul (z w : C) : Cmod (Cmul z w) = Cmod z * Cmod w.
Proof.
  unfold Cmod.
  rewrite <- sqrt_mult by apply Cnorm2_nonneg. f_equal.
  unfold Cnorm2, Cmul. simpl. ring.
Qed.

Lemma Cmod_Csum (n : nat) (f : nat -> C) :
  Cmod (Csum n f) <= bigsum n (fun i => Cmod (f i)).
Proof.
  induction n as [|n IH].
  - unfold Csum, Cmod, Cnorm2. simpl.
    replace (0 * 0 + 0 * 0) with 0 by ring. rewrite sqrt_0. lra.
  - change (Csum (S n) f) with (Cadd (Csum n f) (f n)). simpl.
    eapply Rle_trans; [apply Cmod_add|]. lra.
Qed.

Lemma Re_le_Cmod (z : C) : Re z <= Cmod z.
Proof.
  pose proof (Cmod_nonneg z). pose proof (Cmod_sqr z) as S.
  unfold Cnorm2 in S. nra.
Qed.

(** ** Eigenvalues of a stochastic matrix *)

(** Every eigenvalue of the transpose has modulus at most 1. *)
Lemma eigenvalue_modulus (k : nat) (P : rmat) (l : C) (x : list C) :
  stochastic k P -> eigenpair k (np_transpose P) l x -> Cmod l <= 1.
Proof.
  intros [HP [Hpos Hrow]] [Hlen [[j0 [Hj0 Hnz]] Heq]].
  set (S := bigsum k (fun j => Cmod (nth j x C0))).
  assert (HS : 0 < S).
  { apply (bigsum_pos_exists k _ j0); [|assumption|now apply Cmod_pos].
    intros; apply Cmod_nonneg. }
  assert (Hle : Cmod l * S <= S).
  { unfold S at 1. rewrite <- bigsum_scal_l.
    eapply Rle_trans.
    - apply (bigsum_le k _
        (fun j => bigsum k (fun m => mget P m j * Cmod (nth m x C0)))).
      intros j Hj. rewrite <- Cmod_mul, <- (Heq j Hj).
      eapply Rle_trans; [apply Cmod_Csum|]. apply Req_le.
      apply bigsum_ext. intros m Hm.
      rewrite (mget_transpose k) by assumption.
      apply Cmod_scale. now apply Hpos.
    - rewrite bigsum_exchange. apply Req_le. apply bigsum_ext. intros m Hm.
      rewrite bigsum_scal_r. transitivity (1 * Cmod (nth m x C0)); [|lra].
      f_equal. exact (Hrow m Hm). }
  pose proof (Cmod_nonneg l). nra.
Qed.

Lemma Cgtb_one_false (l : C) : Cmod l <= 1 -> Cgtb l (RtoC 1) = false.
Proof.
  intros H. pose proof (Re_le_Cmod l) as HRe.
  pose proof (Cmod_sqr l) as S. pose proof (Cmod_nonneg l) as H0.
  unfold Cnorm2 in S. unfold Cgtb, RtoC. simpl.
  rewrite Rgtb_false by lra. simpl.
  unfold Reqb. destruct (Req_dec_T (Re l) 1) as [He|Hne]; [|reflexivity].
  simpl. apply Rgtb_false. rewrite He in S. nra.
Qed.

(** 1 is an eigenvalue of the transpose of a stochastic matrix. *)
Lemma singular_shift_one (k : nat) (P : rmat) :
  (0 < k)%nat -> stochastic k P -> singular k (shift k (np_transpose P) 1).
Proof.
  intros Hk [HP [Hpos Hrow]] [Z [HZ [_ HSZ]]].
  set (S := shift k (np_transpose P) 1) in *.
  assert (HS : is_mat k k S) by apply is_mat_mk_mat.
  assert (Hcol : forall l, (l < k)%nat -> bigsum k (fun i => mget S i l) = 0).
  { intros l Hl.
    rewrite (bigsum_ext k _
      (fun i => mget P l i - (if Nat.eqb i l then 1 else 0))).
    - rewrite bigsum_minus, (bigsum_delta k l (fun _ => 1)) by assumption.
      pose proof (Hrow l Hl) as Hr. rewrite_sum Hr. lra.
    - intros i Hi. unfold S, shift. rewrite mget_mk_mat by assumption.
      now rewrite (mget_transpose k). }
  assert (H1 : bigsum k (fun i => mget (mmul S Z) i 0) = 1).
  { rewrite HSZ.
    rewrite (bigsum_ext k _ (fun i => if Nat.eqb i 0 then 1 else 0)).
    - now rewrite (bigsum_delta k 0 (fun _ => 1)).
    - intros i Hi. now rewrite mget_identity. }
  assert (H0 : bigsum k (fun i => mget (mmul S Z) i 0) = 0).
  { rewrite (bigsum_ext k _
      (fun i => bigsum k (fun l => mget S i l * mget Z l 0))).
    - rewrite bigsum_exchange.
      rewrite (bigsum_ext k _ (fun _ => 0)); [apply bigsum_zero|].
      intros l Hl. rewrite bigsum_scal_r. transitivity (0 * mget Z l 0); [|lra].
      f_equal. exact (Hcol l Hl).
    - intros i Hi. now apply mget_mmul. }
  lra.
Qed.

(** ** Comparisons of complex numbers *)

Lemma Reqb_eq (x y : R) : Reqb x y = true <-> x = y.
Proof. unfold Reqb. destruct (Req_dec_T x y); split; congruence. Qed.

Lemma Rgtb_lt (x y : R) : Rgtb x y = true <-> y < x.
Proof. unfold Rgtb. destruct (Rlt_dec y x); split; congruence. Qed.

Lemma Ceqb_eq (z w : C) : Ceqb z w = true <-> z = w.
Proof.
  destruct z as [a b], w as [c d]. unfold Ceqb. simpl.
  rewrite andb_true_iff, !Reqb_eq. split.
  - now intros [-> ->].
  - intros H. now inversion H.
Qed.

Lemma Ceqb_refl (z : C) : Ceqb z z = true.
Proof. now apply Ceqb_eq. Qed.

Lemma Ceqb_neq (z w : C) : z <> w -> Ceqb z w = false.
Proof.
  intros H. destruct (Ceqb z w) eqn:E; [|reflexivity].
  now apply Ceqb_eq in E.
Qed.

Lemma Cgtb_antisym (z w : C) : Cgtb z w = false -> Cgtb w z = false -> z = w.
Proof.
  destruct z as [a b], w as [c d]. unfold Cgtb, Rgtb, Reqb. simpl.
  destruct (Rlt_dec c a), (Rlt_dec a c), (Req_dec_T a c), (Req_dec_T c a),
    (Rlt_dec d b), (Rlt_dec b d); simpl; intros; try discriminate;
    try lra; f_equal; lra.
Qed.

(** ** The builtins at an element type read in the complex numbers *)

Lemma bigsum_shift (n : nat) (f : nat -> R) :
  bigsum (S n) f = f 0%nat + bigsum n (fun m => f (S m)).
Proof.
  induction n as [|n IH]; [simpl; lra|].
  change (bigsum (S (S n)) f) with (bigsum (S n) f + f (S n)).
  rewrite IH. simpl. lra.
Qed.

Lemma np_col_rows {A} (m : nat) (d : matrix A) (i : nat) (d0 : A) :
  Forall (fun r => length r = m) d -> (i < m)%nat ->
  np_col d i = Ok (map (fun r => nth i r d0) d).
Proof.
  intros Hd Hi. induction Hd as [|r d Hr _ IH]; [reflexivity|]. simpl.
  destruct (nth_error r i) as [x|] eqn:E.
  - rewrite IH. simpl. now rewrite (nth_error_nth _ _ _ E).
  - apply nth_error_None in E. lia.
Qed.

Section DtypeLaws.

Context {T V : Type} (dt : dtype T V) (emb : T -> C).

Hypothesis emb_gtb : forall x y, dt_gtb dt x y = Cgtb (emb x) (emb y).
Hypothesis emb_eqb : forall x y, dt_eqb dt x y = Ceqb (emb x) (emb y).
Hypothesis emb_add : forall x y, emb (dt_add dt x y) = Cadd (emb x) (emb y).
Hypothesis emb_zero : emb (dt_zero dt) = C0.

Lemma py_max_fold (top : C) (t : list T) (acc : T) :
  Cgtb (emb acc) top = false ->
  (forall y, In y t -> Cgtb (emb y) top = false) ->
  emb acc = top \/ In top (map emb t) ->
  emb (fold_left (fun m y => if dt_gtb dt y m then y else m) t acc) = top.
Proof.
  revert acc. induction t as [|y t IH]; intros acc Hacc Hall Hin; simpl.
  - destruct Hin as [H|[]]. exact H.
  - rewrite emb_gtb. destruct (Cgtb (emb y) (emb acc)) eqn:E.
    + apply IH; [apply Hall; now left | intros; apply Hall; now right |].
      destruct Hin as [H|[H|H]]; [|now left|now right].
      rewrite H in E. rewrite Hall in E by now left. discriminate.
    + apply IH; [assumption | intros; apply Hall; now right |].
      destruct Hin as [H|[H|H]]; [now left| |now right].
      left. apply Cgtb_antisym; [assumption|]. now rewrite <- H.
Qed.

Lemma py_max_top (top : C) (v : list T) :
  In top (map emb v) ->
  (forall y, In y v -> Cgtb (emb y) top = false) ->
  exists mv, py_max dt v = Ok mv /\ emb mv = top.
Proof.
  intros Hin Hall. destruct v as [|x t]; [destruct Hin|].
  eexists. split; [reflexivity|].
  apply py_max_fold; [apply Hall; now left | intros; apply Hall; now right|].
  destruct Hin as [H|H]; [now left | now right].
Qed.

Lemma py_index_found (v : list T) (x : T) :
  In x v ->
  exists i, py_index dt v x = Ok i /\ (i < length v)%nat /\
            emb (nth i v (dt_zero dt)) = emb x.
Proof.
  induction v as [|y t IH]; intros Hin; [destruct Hin|]. simpl.
  rewrite emb_eqb. destruct (Ceqb (emb y) (emb x)) eqn:E.
  - exists 0%nat. repeat split; [lia|]. now apply Ceqb_eq.
  - destruct Hin as [->|Hin]; [now rewrite Ceqb_refl in E|].
    destruct (IH Hin) as [i [Hi [Hlt Hemb]]]. exists (S i).
    rewrite Hi. repeat split; [lia | assumption].
Qed.

Lemma py_max_In (v : list T) (mv : T) : py_max dt v = Ok mv -> In mv v.
Proof.
  destruct v as [|x t]; [discriminate|]. simpl. intros H. inversion H. clear.
  revert x. induction t as [|y t IH]; intros x; simpl; [now left|].
  destruct (dt_gtb dt y x).
  - destruct (IH y) as [<-|H]; auto.
  - destruct (IH x) as [<-|H]; auto.
Qed.

Lemma py_sum_fold (x : list T) (acc : T) :
  emb (fold_left (dt_add dt) x acc) =
  Cadd (emb acc) (Csum (length x) (fun m => emb (nth m x (dt_zero dt)))).
Proof.
  revert acc. induction x as [|y t IH]; intros acc.
  - simpl. destruct (emb acc) as [a b]. unfold Cadd, Csum. simpl.
    f_equal; lra.
  - cbn [fold_left length]. rewrite IH, emb_add.
    unfold Cadd, Csum. cbn [Re Im fst snd].
    rewrite 2!(bigsum_shift (length t)). cbn [nth]. f_equal; lra.
Qed.

Lemma py_sum_emb (x : list T) :
  emb (py_sum dt x) = Csum (length x) (fun m => emb (nth m x (dt_zero dt))).
Proof.
  unfold py_sum. rewrite py_sum_fold, emb_zero.
  unfold Cadd, Csum, C0. simpl. f_equal; lra.
Qed.

End DtypeLaws.

(** ** The eigenvector [steady_state] selects *)

Lemma list_tabulate {A} (k : nat) (x : list A) (d0 : A) :
  length x = k -> x = map (fun j => nth j x d0) (seq 0 k).
Proof.
  intros Hx. apply (nth_ext _ _ d0 d0).
  - now rewrite length_map, length_seq.
  - intros j Hj. rewrite nth_map_seq by lia. reflexivity.
Qed.

Section EigenvectorOne.

Variables (k : nat) (P : rmat).
Hypothesis Hsto : stochastic k P.
Hypothesis Herg : ergodic k P.

Variable x : list C.
Hypothesis Hx : eigenpair k (np_transpose P) (RtoC 1) x.

Lemma eigen_one_invariant : invariant k P (vre x) /\ invariant k P (vim x).
Proof.
  set (a := vre x). set (b := vim x).
  destruct Hx as [_ [_ Heq]]. destruct Hsto as [HP _].
  split; intros j Hj; specialize (Heq j Hj).
  - apply (f_equal fst) in Heq. unfold Csum, Cmul, RtoC in Heq.
    cbn [fst snd Re Im] in Heq. unfold a, vre.
    rewrite (bigsum_ext k _
      (fun m => Re (Cscale (mget (np_transpose P) j m) (nth m x C0)))).
    + rewrite Heq. unfold Re. lra.
    + intros m Hm. rewrite (mget_transpose k) by assumption.
      unfold Cscale, Re. cbn [fst]. lra.
  - apply (f_equal snd) in Heq. unfold Csum, Cmul, RtoC in Heq.
    cbn [fst snd Re Im] in Heq. unfold b, vim.
    rewrite (bigsum_ext k _
      (fun m => Im (Cscale (mget (np_transpose P) j m) (nth m x C0)))).
    + rewrite Heq. unfold Im, Re. lra.
    + intros m Hm. rewrite (mget_transpose k) by assumption.
      unfold Cscale, Im. cbn [snd]. lra.
Qed.

Lemma eigen_one_sum_nonzero :
  0 < bigsum k (vre x) * bigsum k (vre x) + bigsum k (vim x) * bigsum k (vim x).
Proof.
  set (a := vre x). set (b := vim x).
  set (sa := bigsum k a). set (sb := bigsum k b).
  destruct eigen_one_invariant as [Ha Hb].
  destruct Hx as [_ [[j [Hj Hnz]] _]].
  destruct (Req_dec_T sa 0) as [Za|Na]; [|nra].
  destruct (Req_dec_T sb 0) as [Zb|Nb]; [|nra].
  exfalso. apply Hnz.
  pose proof (invariant_sum_0 k P Hsto Herg a Ha Za j Hj) as Eja.
  pose proof (invariant_sum_0 k P Hsto Herg b Hb Zb j Hj) as Ejb.
  unfold a, b, vre, vim, Re, Im in Eja, Ejb. destruct (nth j x C0) as [p q].
  simpl in *. unfold C0. now subst.
Qed.

Lemma eigen_one_imaginary (j : nat) :
  (j < k)%nat -> vim x j * bigsum k (vre x) - vre x j * bigsum k (vim x) = 0.
Proof.
  set (a := vre x). set (b := vim x).
  set (sa := bigsum k a). set (sb := bigsum k b).
  intros Hj. destruct eigen_one_invariant as [Ha Hb].
  pose proof (invariant_proportional k P Hsto Herg a b Ha Hb j Hj) as H.
  fold sa sb in H. lra.
Qed.

Lemma eigen_one_stationary :
  invariant k P (normalised k x) /\
  bigsum k (normalised k x) = 1 /\
  forall j, (j < k)%nat -> 0 <= normalised k x j.
Proof.
  destruct eigen_one_invariant as [Ha Hb].
  pose proof eigen_one_sum_nonzero as HN.
  set (a := vre x) in *. set (b := vim x) in *.
  set (sa := bigsum k a) in *. set (sb := bigsum k b) in *.
  set (w := normalised k x).
  set (N := sa * sa + sb * sb) in *.
  assert (Ew : forall j, w j = (sa / N) * a j + (sb / N) * b j).
  { intros j. unfold w, normalised. fold a b sa sb N. field. lra. }
  repeat split.
  - intros j Hj. rewrite Ew.
    rewrite (bigsum_ext k _
      (fun i => ((sa / N) * a i + (sb / N) * b i) * mget P i j)).
    + now apply (invariant_lin k P a b (sa / N) (sb / N) Ha Hb j Hj).
    + intros i _. now rewrite Ew.
  - rewrite (bigsum_ext k _ (fun j => (sa / N) * a j + (sb / N) * b j))
      by (intros; apply Ew).
    rewrite bigsum_plus, !bigsum_scal_l. fold sa sb. unfold N. field.
    fold N. lra.
  - intros j Hj. unfold w, normalised. fold a b sa sb N.
    pose proof (invariant_times_sum k P Hsto Herg a j Ha Hj) as H1.
    pose proof (invariant_times_sum k P Hsto Herg b j Hb Hj) as H2.
    fold sa in H1. fold sb in H2.
    apply Rmult_le_pos; [lra|]. apply Rlt_le. now apply Rinv_0_lt_compat.
Qed.

End EigenvectorOne.

Section DominantSpec.

Context {T V : Type} (dt : dtype T V) (emb : T -> C).

Hypothesis emb_gtb : forall x y, dt_gtb dt x y = Cgtb (emb x) (emb y).
Hypothesis emb_eqb : forall x y, dt_eqb dt x y = Ceqb (emb x) (emb y).
Hypothesis emb_add : forall x y, emb (dt_add dt x y) = Cadd (emb x) (emb y).
Hypothesis emb_zero : emb (dt_zero dt) = C0.

Lemma nth_map_emb (l : list T) (i : nat) :
  nth i (map emb l) C0 = emb (nth i l (dt_zero dt)).
Proof. rewrite <- emb_zero. apply map_nth. Qed.

Lemma column_emb (d : matrix T) (i : nat) :
  column (map (map emb) d) i =
  map emb (map (fun r => nth i r (dt_zero dt)) d).
Proof.
  unfold column. rewrite !map_map. apply map_ext. intros r.
  apply nth_map_emb.
Qed.

Variables (k : nat) (P : rmat).
Hypothesis Hsto : stochastic k P.

Variables (v : list T) (d : matrix T).
Hypothesis Hv : length v = k.
Hypothesis Hd : is_mat k k d.
Hypothesis Hpairs : forall i, (i < k)%nat ->
  eigenpair k (np_transpose P) (nth i (map emb v) C0)
    (column (map (map emb) d) i).
Hypothesis Hone : In (RtoC 1) (map emb v).

(** [max] finds the eigenvalue 1, [index] its first position, and the
    column there is an eigenvector for 1. *)
Lemma dominant_selects :
  exists x : list T,
    length x = k /\
    eigenpair k (np_transpose P) (RtoC 1) (map emb x) /\
    dominant dt v d = Ok (map (fun z => dt_div dt z (py_sum dt x)) x).
Proof.
  assert (Hall : forall y, In y v -> Cgtb (emb y) (RtoC 1) = false).
  { intros y Hy. destruct (In_nth v y (dt_zero dt) Hy) as [i [Hi Ei]].
    apply Cgtb_one_false.
    apply (eigenvalue_modulus k P _ (column (map (map emb) d) i) Hsto).
    rewrite <- Ei, <- nth_map_emb. apply Hpairs. lia. }
  destruct (py_max_top dt emb emb_gtb (RtoC 1) v Hone Hall) as [mv [Hmax Emv]].
  destruct (py_index_found dt emb emb_eqb v mv (py_max_In dt v mv Hmax))
    as [i [Hidx [Hi Ei]]].
  rewrite Hv in Hi.
  exists (map (fun r => nth i r (dt_zero dt)) d). split; [|split].
  - rewrite length_map. apply Hd.
  - rewrite <- column_emb, <- Emv, <- Ei, <- nth_map_emb. now apply Hpairs.
  - unfold dominant, selected. rewrite Hmax. cbn [bind]. rewrite Hidx.
    cbn [bind].
    rewrite (np_col_rows k d i (dt_zero dt) (proj2 Hd) Hi). reflexivity.
Qed.

End DominantSpec.

(** ** The normalisation at the two element types *)

Lemma RtoC_gtb (x y : R) : Rgtb x y = Cgtb (RtoC x) (RtoC y).
Proof.
  unfold Cgtb, RtoC. simpl. rewrite (Rgtb_false 0 0) by lra.
  now rewrite andb_false_r, orb_false_r.
Qed.

Lemma RtoC_eqb (x y : R) : Reqb x y = Ceqb (RtoC x) (RtoC y).
Proof.
  unfold Ceqb, RtoC. simpl. rewrite (Reqb_true 0 0) by reflexivity.
  now rewrite andb_true_r.
Qed.

Lemma RtoC_add (x y : R) : RtoC (x + y) = Cadd (RtoC x) (RtoC y).
Proof. unfold Cadd, RtoC. simpl. f_equal. lra. Qed.

Lemma vre_RtoC (x : list R) (j : nat) : vre (map RtoC x) j = nth j x 0.
Proof.
  unfold vre. change C0 with (RtoC 0). now rewrite map_nth.
Qed.

Lemma vim_RtoC (x : list R) (j : nat) : vim (map RtoC x) j = 0.
Proof.
  unfold vim. change C0 with (RtoC 0). now rewrite map_nth.
Qed.

Section Normalise.

Variables (k : nat) (P : rmat).
Hypothesis Hsto : stochastic k P.
Hypothesis Herg : ergodic k P.

Lemma normalise_float64 (x : list R) :
  length x = k ->
  eigenpair k (np_transpose P) (RtoC 1) (map RtoC x) ->
  map (fun z => np_div z (py_sum float64 x)) x =
  map Fin (map (normalised k (map RtoC x)) (seq 0 k)).
Proof.
  intros Hlen Hx.
  pose proof (eigen_one_sum_nonzero k P Hsto Herg _ Hx) as HN.
  assert (Es : py_sum float64 x = bigsum k (vre (map RtoC x))).
  { pose proof (py_sum_emb float64 RtoC RtoC_add eq_refl x) as E.
    apply (f_equal fst) in E. unfold Csum in E. cbn [fst RtoC] in E.
    rewrite E, Hlen. apply bigsum_ext. intros m _.
    now rewrite vre_RtoC. }
  assert (Eb : bigsum k (vim (map RtoC x)) = 0).
  { rewrite (bigsum_ext k _ (fun _ => 0)); [apply bigsum_zero|].
    intros m _. apply vim_RtoC. }
  rewrite Eb in HN. rewrite Es.
  set (s := bigsum k (vre (map RtoC x))) in *.
  assert (Hs : s <> 0) by nra.
  rewrite (list_tabulate k x 0 Hlen) at 1. rewrite !map_map.
  apply map_seq_ext. intros j Hj.
  unfold np_div. rewrite (Reqb_false s 0 Hs). f_equal.
  unfold normalised. fold s. rewrite Eb, vre_RtoC, vim_RtoC. field. lra.
Qed.

Lemma normalise_complex128 (x : list C) :
  length x = k ->
  eigenpair k (np_transpose P) (RtoC 1) x ->
  map (fun z => np_cdiv z (py_sum complex128 x)) x =
  map (fun r => (Fin r, Fin 0)) (map (normalised k x) (seq 0 k)).
Proof.
  intros Hlen Hx.
  pose proof (eigen_one_sum_nonzero k P Hsto Herg _ Hx) as HN.
  assert (Es : py_sum complex128 x = (bigsum k (vre x), bigsum k (vim x))).
  { pose proof (py_sum_emb complex128 (fun z => z)
                  (fun _ _ => eq_refl) eq_refl x) as E.
    rewrite E, Hlen. reflexivity. }
  rewrite Es.
  set (sa := bigsum k (vre x)) in *. set (sb := bigsum k (vim x)) in *.
  assert (Hnz : (sa, sb) <> C0).
  { intros E. unfold C0 in E. injection E as Ea Eb. nra. }
  rewrite (list_tabulate k x C0 Hlen) at 1. rewrite !map_map.
  apply map_seq_ext. intros j Hj.
  unfold np_cdiv. rewrite (Ceqb_neq _ _ Hnz).
  pose proof (eigen_one_imaginary k P Hsto Herg x Hx j) as Him.
  cbv zeta in Him. fold sa sb in Him. specialize (Him ltac:(lia)).
  unfold Cdiv, Cnorm2, normalised. cbn [Re Im fst snd]. fold sa sb.
  unfold vre, vim, Re, Im in *. destruct (nth j x C0) as [p q].
  cbn [fst snd] in *. f_equal; f_equal.
  rewrite Him. unfold Rdiv. lra.
Qed.

End Normalise.

(** ** What [steady_state] returns on an ergodic chain *)

Lemma is_mat_map_inv {A B} (f : A -> B) (n m : nat) (d : matrix A) :
  is_mat n m (map (map f) d) -> is_mat n m d.
Proof.
  intros [Hn Hr]. split; [now rewrite length_map in Hn|].
  rewrite Forall_forall in *. intros r Hin.
  rewrite <- (length_map f). apply Hr. now apply in_map.
Qed.

Lemma map_same {A} (l : list A) : map (fun z => z) l = l.
Proof. induction l as [|a l IH]; simpl; [|rewrite IH]; reflexivity. Qed.

Lemma map_map_same {A} (d : matrix A) : map (map (fun z => z)) d = d.
Proof.
  induction d as [|r d IH]; simpl; [|rewrite IH, map_same]; reflexivity.
Qed.

Lemma vsum_bigsum (w : list R) :
  vsum w = bigsum (length w) (fun i => nth i w 0).
Proof.
  induction w as [|x w IH]; [reflexivity|].
  cbn [length]. rewrite bigsum_shift. cbn [nth]. simpl. now rewrite IH.
Qed.

Section SteadyState.

Context {la : LinAlg}.

Variables (k : nat) (P : rmat).
Hypothesis Hk : (0 < k)%nat.
Hypothesis Hsto : stochastic k P.
Hypothesis Herg : ergodic k P.
Hypothesis Heig : eig_ok k (np_transpose P).

Lemma steady_state_normalised :
  exists x : list C,
    eigenpair k (np_transpose P) (RtoC 1) x /\
    (steady_state P = Ok (real_arr (map (normalised k x) (seq 0 k))) \/
     steady_state P = Ok (complex_arr (map (normalised k x) (seq 0 k)))).
Proof.
  destruct Heig as [r [Hr [Hlen [Hd [Hpairs Hcomplete]]]]].
  pose proof (Hcomplete 1 (singular_shift_one k P Hk Hsto)) as Hone.
  unfold steady_state. rewrite Hr. cbn [bind].
  destruct r as [v d | v d]; cbn [eig_values eig_vectors] in *.
  - rewrite length_map in Hlen. apply is_mat_map_inv in Hd.
    destruct (dominant_selects float64 RtoC RtoC_gtb RtoC_eqb eq_refl
                k P Hsto v d Hlen Hd Hpairs Hone) as [x [Hx [Hxe ->]]].
    exists (map RtoC x). split; [assumption|]. left. cbn [bind].
    unfold real_arr. do 2 f_equal.
    now apply (normalise_float64 k P Hsto Herg).
  - assert (Hpairs' : forall i, (i < k)%nat ->
              eigenpair k (np_transpose P) (nth i (map (fun z => z) v) C0)
                (column (map (map (fun z : C => z)) d) i)).
    { intros i Hi. rewrite map_map_same, map_same. now apply Hpairs. }
    assert (Hone' : In (RtoC 1) (map (fun z => z) v)) by now rewrite map_same.
    destruct (dominant_selects complex128 (fun z => z)
                (fun _ _ => eq_refl) (fun _ _ => eq_refl) eq_refl
                k P Hsto v d Hlen Hd Hpairs' Hone') as [x [Hx [Hxe ->]]].
    rewrite map_same in Hxe.
    exists x. split; [assumption|]. right. cbn [bind].
    unfold complex_arr. do 2 f_equal.
    now apply (normalise_complex128 k P Hsto Herg).
Qed.

Lemma normalised_stationary (x : list C) :
  eigenpair k (np_transpose P) (RtoC 1) x ->
  stationary k P (map (normalised k x) (seq 0 k)) /\
  Forall (fun y => 0 <= y) (map (normalised k x) (seq 0 k)).
Proof.
  intros Hx.
  destruct (eigen_one_stationary k P Hsto Herg x Hx) as [Hinv [Hsum Hpos]].
  cbv zeta in *.
  assert (Hnth : forall j, (j < k)%nat ->
            nth j (map (normalised k x) (seq 0 k)) 0 = normalised k x j).
  { intros j Hj. now rewrite nth_map_seq. }
  split; [split; [|split]|].
  - now rewrite length_map, length_seq.
  - intros j Hj. rewrite Hnth by assumption. rewrite <- (Hinv j Hj).
    apply bigsum_ext. intros i Hi. now rewrite Hnth.
  - rewrite <- Hsum. apply bigsum_ext. intros i Hi. now apply Hnth.
  - apply Forall_forall. intros y Hy. apply in_map_iff in Hy.
    destruct Hy as [j [<- Hj]]. apply in_seq in Hj. apply Hpos. lia.
Qed.

(** An ergodic chain has one stationary distribution only. *)
Lemma stationary_unique (w p : list R) :
  stationary k P w -> stationary k P p -> w = p.
Proof.
  intros [Lw [Iw Sw]] [Lp [Ip Sp]]. apply (nth_ext _ _ 0 0); [congruence|].
  intros j Hj. rewrite Lw in Hj.
  pose proof (invariant_proportional k P Hsto Herg _ _ Iw Ip j Hj) as H.
  revert H. rewrite_sum Sp. rewrite_sum Sw. lra.
Qed.

(** [steady_state] returns the stationary distribution of the chain. *)
Lemma steady_state_stationary (p : list R) :
  stationary k P p ->
  steady_state P = Ok (real_arr p) \/ steady_state P = Ok (complex_arr p).
Proof.
  intros Hp. destruct steady_state_normalised as [x [Hx Hs]].
  destruct (normalised_stationary x Hx) as [Hst _].
  now rewrite <- (stationary_unique _ p Hst Hp).
Qed.

End SteadyState.

(** ** Products and inverses *)

Lemma mmul_assoc (k : nat) (A B D : rmat) :
  is_mat k k A -> is_mat k k B -> is_mat k k D ->
  mmul (mmul A B) D = mmul A (mmul B D).
Proof.
  intros HA HB HD.
  apply (mat_ext k k); try (apply is_mat_mmul; auto using is_mat_mmul).
  intros i j Hi Hj.
  rewrite (mget_mmul k) by auto using is_mat_mmul.
  rewrite (mget_mmul k A) by auto using is_mat_mmul.
  rewrite (bigsum_ext k _
    (fun l => bigsum k (fun m => mget A i m * mget B m l * mget D l j))).
  - rewrite bigsum_exchange. apply bigsum_ext. intros m Hm.
    rewrite (mget_mmul k) by assumption. rewrite <- bigsum_scal_l.
    apply bigsum_ext. intros l _. lra.
  - intros l Hl. rewrite (mget_mmul k) by assumption.
    now rewrite bigsum_scal_r.
Qed.

Lemma mmul_identity_l (k : nat) (A : rmat) :
  is_mat k k A -> mmul (np_identity k) A = A.
Proof.
  intros HA. apply (mat_ext k k); auto using is_mat_mmul, is_mat_identity.
  intros i j Hi Hj. rewrite (mget_mmul k) by auto using is_mat_identity.
  rewrite (bigsum_ext k _ (fun l => if Nat.eqb l i then mget A l j else 0)).
  - now apply (bigsum_delta k i (fun l => mget A l j)).
  - intros l Hl. rewrite mget_identity, Nat.eqb_sym by assumption.
    destruct (Nat.eqb_spec l i) as [->|]; lra.
Qed.

Lemma mmul_identity_r (k : nat) (A : rmat) :
  is_mat k k A -> mmul A (np_identity k) = A.
Proof.
  intros HA. apply (mat_ext k k); auto using is_mat_mmul, is_mat_identity.
  intros i j Hi Hj. rewrite (mget_mmul k) by auto using is_mat_identity.
  rewrite (bigsum_ext k _ (fun l => if Nat.eqb l j then mget A i l else 0)).
  - now apply (bigsum_delta k j (fun l => mget A i l)).
  - intros l Hl. rewrite mget_identity by assumption.
    destruct (Nat.eqb_spec l j) as [->|]; lra.
Qed.

(** A matrix has at most one inverse. *)
Lemma inverse_unique (k : nat) (B Z Z' : rmat) :
  is_mat k k B -> inverse_of k B Z -> inverse_of k B Z' -> Z = Z'.
Proof.
  intros HB [HZ [HZB _]] [HZ' [_ HBZ']].
  rewrite <- (mmul_identity_r k Z HZ), <- HBZ'.
  rewrite <- (mmul_assoc k) by assumption.
  rewrite HZB. now apply mmul_identity_l.
Qed.

(** ** The Land of Oz chain *)

Ltac lists_ring :=
  lazymatch goal with
  | |- (_ :: _) = (_ :: _) => apply f_equal2; lists_ring
  | |- _ => first [reflexivity | field]
  end.

Lemma oz_spec_mul (c p q c' p' q' : R) :
  mmul (oz_spec c p q) (oz_spec c' p' q') = oz_spec (c * c') (p * p') (q * q').
Proof. unfold oz_spec. mat_simpl. lists_ring. Qed.

Lemma oz_spec_identity : np_identity 3 = oz_spec 1 1 1.
Proof. unfold oz_spec. mat_simpl. lists_lra. Qed.

Lemma oz_spec_P_oz : P_oz = oz_spec 1 (1/4) (-1/4).
Proof. unfold oz_spec, P_oz. lists_lra. Qed.

Lemma is_mat_oz_spec (c p q : R) : is_mat 3 3 (oz_spec c p q).
Proof. is_mat_tac. Qed.

Lemma is_mat_P_oz : is_mat 3 3 P_oz.
Proof. is_mat_tac. Qed.

Lemma mpow_P_oz (n : nat) : mpow P_oz n = oz_spec 1 ((1/4) ^ n) ((-1/4) ^ n).
Proof.
  induction n as [|n IH].
  - simpl. rewrite <- oz_spec_identity. reflexivity.
  - cbn [mpow]. rewrite IH, oz_spec_P_oz at 1.
    rewrite oz_spec_mul. cbn [pow]. f_equal; lra.
Qed.

Lemma oz_fundamental :
  madd (msub (np_identity 3) P_oz) (mpow P_oz 1000) = oz_spec 1 oz_p oz_q.
Proof.
  rewrite mpow_P_oz. unfold oz_p, oz_q.
  generalize ((1/4) ^ 1000) ((-1/4) ^ 1000). intros e e'.
  unfold oz_spec, P_oz. mat_simpl. lists_lra.
Qed.

Lemma oz_spec_inverse (p q : R) :
  p <> 0 -> q <> 0 -> inverse_of 3 (oz_spec 1 p q) (oz_spec 1 (/ p) (/ q)).
Proof.
  intros Hp Hq. split; [apply is_mat_oz_spec|].
  rewrite !oz_spec_mul, oz_spec_identity.
  split; f_equal; field; assumption.
Qed.

Lemma oz_eps_even : (-1/4) ^ 1000 = (1/4) ^ 1000.
Proof.
  change 1000%nat with (2 * 500)%nat. rewrite !pow_sqr. f_equal. lra.
Qed.

Lemma oz_eps_small : 0 < (1/4) ^ 1000 <= 1 / 10 ^ 12.
Proof.
  split; [apply pow_lt; lra|].
  change 1000%nat with (20 + 980)%nat. rewrite pow_add.
  assert (H1 : (1/4) ^ 980 <= 1).
  { rewrite <- (pow1 980). apply pow_incr. lra. }
  assert (H2 : 0 < (1/4) ^ 980) by (apply pow_lt; lra).
  assert (H3 : (1/4) ^ 20 <= 1 / 10 ^ 12) by (simpl; lra).
  assert (H4 : 0 < (1/4) ^ 20) by (apply pow_lt; lra).
  nra.
Qed.

(** The entries of the inverse of [I - P + A] and of [A], in terms of
    [e = (1/4) ** 1000]. *)
Lemma oz_bounds :
  exists e u t,
    0 < e <= 1 / 10 ^ 12 /\
    4/3 - 2 * e <= u <= 4/3 /\
    4/5 - e <= t <= 4/5 /\
    mpow P_oz 1000 = oz_spec 1 e e /\
    oz_spec 1 (/ oz_p) (/ oz_q) = oz_spec 1 u t.
Proof.
  exists ((1/4) ^ 1000), (/ oz_p), (/ oz_q).
  pose proof oz_eps_small as He. split; [exact He|].
  unfold oz_p, oz_q. rewrite mpow_P_oz, oz_eps_even.
  set (e := (1/4) ^ 1000) in *.
  assert (Hu : (1 - 1/4 + e) * / (1 - 1/4 + e) = 1) by (apply Rinv_r; lra).
  assert (Ht : (1 - (-1/4) + e) * / (1 - (-1/4) + e) = 1)
    by (apply Rinv_r; lra).
  assert (Hu0 : 0 < / (1 - 1/4 + e)) by (apply Rinv_0_lt_compat; lra).
  assert (Ht0 : 0 < / (1 - (-1/4) + e)) by (apply Rinv_0_lt_compat; lra).
  repeat split; try reflexivity; nra.
Qed.

Lemma approx_div (n d x : R) :
  0 < d -> (x - tolerance) * d <= n <= (x + tolerance) * d ->
  approx (n / d) x.
Proof.
  intros Hd [H1 H2]. unfold approx. apply Rabs_le.
  assert (E : n / d - x = (n - x * d) / d) by (field; lra).
  rewrite E. split.
  - apply (Rmult_le_reg_r d); [assumption|].
    unfold Rdiv. rewrite Rmult_assoc, Rinv_l by lra. lra.
  - apply (Rmult_le_reg_r d); [assumption|].
    unfold Rdiv. rewrite Rmult_assoc, Rinv_l by lra. lra.
Qed.

Lemma approx_between (x y : R) :
  approx x y -> y - tolerance <= x <= y + tolerance.
Proof.
  unfold approx, Rabs. destruct (Rcase_abs (x - y)); intros H; lra.
Qed.

Lemma tolerance_pos : 0 < tolerance.
Proof. unfold tolerance. simpl. lra. Qed.

Ltac three_cases i H :=
  destruct i as [|[|[|i]]]; [ | | | exfalso; clear - H; lia ].

Section FmptOz.

Context {la : LinAlg}.

Hypothesis Hinv :
  inv_ok 3 (madd (msub (np_identity 3) P_oz) (mpow P_oz 1000)).

Lemma fmpt_P_oz_entries :
  exists e u t,
    0 < e <= 1 / 10 ^ 12 /\
    4/3 - 2 * e <= u <= 4/3 /\
    4/5 - e <= t <= 4/5 /\
    fmpt P_oz =
    Ok (mk_mat 3 3
          (fun i j => np_div (mget (oz_spec 1 u t) j j - mget (oz_spec 1 u t) i j)
                             (mget (oz_spec 1 e e) j j))).
Proof.
  destruct oz_bounds as [e [u [t [He [Hu [Ht [EA EZ]]]]]]].
  exists e, u, t. repeat split; try tauto.
  rewrite (fmpt_eq_spec 3 P_oz is_mat_P_oz Hinv). unfold fmpt_spec.
  rewrite (ncols_is_mat 3 _ (is_mat_mpow 3 P_oz 1000 is_mat_P_oz)).
  unfold inv_ok in Hinv. rewrite oz_fundamental in *.
  destruct (la_inv (oz_spec 1 oz_p oz_q)) as [Z|err].
  - assert (Hp : oz_p <> 0).
    { unfold oz_p. pose proof oz_eps_small. lra. }
    assert (Hq : oz_q <> 0).
    { unfold oz_q. rewrite oz_eps_even. pose proof oz_eps_small. lra. }
    rewrite (inverse_unique 3 _ Z _ (is_mat_oz_spec _ _ _) Hinv
               (oz_spec_inverse oz_p oz_q Hp Hq)).
    cbn [bind]. now rewrite EA, EZ.
  - exfalso. destruct Hinv as [_ Hs]. apply Hs.
    eexists. apply oz_spec_inverse.
    + unfold oz_p. pose proof oz_eps_small. lra.
    + unfold oz_q. rewrite oz_eps_even. pose proof oz_eps_small. lra.
Qed.

End FmptOz.

Section FmptOzClaim.

Context {la : LinAlg}.

(** C5.  On the Land of Oz matrix, with [numpy.linalg.inv] keeping its
    contract on [I - P + A], [fmpt] returns a matrix of finite entries that
    agrees, entry by entry and within the tolerance, with
    [[0, 4, 10/3], [8/3, 0, 8/3], [10/3, 4, 0]]; its entries [(0,1)] and
    [(1,0)] differ, so the result is not symmetric. *)
Theorem fmpt_land_of_oz :
  inv_ok 3 (madd (msub (np_identity 3) P_oz) (mpow P_oz 1000)) ->
  exists M : rmat,
    fmpt P_oz = Ok (map (map Fin) M) /\
    is_mat 3 3 M /\
    (forall i j, (i < 3)%nat -> (j < 3)%nat ->
       approx (mget M i j) (mget fmpt_oz i j)) /\
    mget M 0 1 <> mget M 1 0.
Proof.
  intros Hinv.
  destruct (fmpt_P_oz_entries Hinv) as [e [u [t [He [Hu [Ht HM]]]]]].
  exists (mk_mat 3 3
            (fun i j => (mget (oz_spec 1 u t) j j - mget (oz_spec 1 u t) i j)
                        / mget (oz_spec 1 e e) j j)).
  pose proof tolerance_pos as Htol.
  assert (Happ : forall i j, (i < 3)%nat -> (j < 3)%nat ->
    approx (mget (mk_mat 3 3
              (fun i j => (mget (oz_spec 1 u t) j j - mget (oz_spec 1 u t) i j)
                          / mget (oz_spec 1 e e) j j)) i j)
           (mget fmpt_oz i j)).
  { intros i j Hi Hj. rewrite mget_mk_mat by assumption.
    unfold tolerance in Htol. simpl in Htol.
    three_cases i Hi; three_cases j Hj;
      unfold mget, oz_spec, fmpt_oz; cbn [nth];
      (apply approx_div; [lra|]); unfold tolerance; simpl pow; nra. }
  split; [|split; [apply is_mat_mk_mat | split; [exact Happ|]]].
  - rewrite HM. f_equal. unfold mk_mat. cbn [map seq].
    unfold mget, oz_spec. cbn [nth]. unfold np_div. Rdecide. reflexivity.
  - pose proof (Happ 0%nat 1%nat ltac:(lia) ltac:(lia)) as H01.
    pose proof (Happ 1%nat 0%nat ltac:(lia) ltac:(lia)) as H10.
    apply approx_between in H01. apply approx_between in H10.
    unfold fmpt_oz in H01, H10.
    change (mget [[0; 4; 10/3]; [8/3; 0; 8/3]; [10/3; 4; 0]] 0 1)
      with 4 in H01.
    change (mget [[0; 4; 10/3]; [8/3; 0; 8/3]; [10/3; 4; 0]] 1 0)
      with (8/3) in H10.
    unfold tolerance in *. simpl pow in *. lra.
Qed.

End FmptOzClaim.

(** ** The examples as chains, and the recorded answers as valid answers *)

Ltac two_cases i H :=
  destruct i as [|[|i]]; [ | | exfalso; clear - H; lia ].

Ltac one_case i H :=
  destruct i as [|i]; [ | exfalso; clear - H; lia ].

(** [x <> 0] from a hypothesis [y <> c], linearly. *)
Ltac neq_lra :=
  let E := fresh in
  intro E;
  match goal with
  | H : _ <> _ |- _ => apply H; lra
  end.

Ltac lists_field :=
  lazymatch goal with
  | |- (_ :: _) = (_ :: _) => apply f_equal2; lists_field
  | |- _ => first [reflexivity | field; repeat split; neq_lra]
  end.

Ltac complex_lra :=
  unfold Csum, Cscale, Cmul, RtoC, C0, Re, Im; simpl;
  apply f_equal2; lra.

Lemma stochastic_P_oz : stochastic 3 P_oz.
Proof.
  split; [is_mat_tac|]. split.
  - intros i j Hi Hj. three_cases i Hi; three_cases j Hj;
      unfold mget, P_oz; simpl; lra.
  - intros i Hi. three_cases i Hi; unfold mget, P_oz; simpl; lra.
Qed.

Lemma ergodic_P_oz : ergodic 3 P_oz.
Proof.
  exists 2%nat. intros i j Hi Hj. rewrite mpow_P_oz.
  three_cases i Hi; three_cases j Hj; unfold mget, oz_spec; simpl; lra.
Qed.

Lemma stationary_pi_oz : stationary 3 P_oz pi_oz.
Proof.
  split; [reflexivity|]. split.
  - intros j Hj. three_cases j Hj; unfold mget, P_oz, pi_oz; simpl; lra.
  - unfold pi_oz. simpl. lra.
Qed.

Lemma oz_shift (l : R) :
  shift 3 (np_transpose P_oz) l =
  np_transpose (oz_spec (1 - l) (1/4 - l) (-1/4 - l)).
Proof. unfold P_oz, oz_spec. mat_simpl. lists_lra. Qed.

Lemma oz_shift_inverse (l : R) :
  l <> 1 -> l <> 1/4 -> l <> -1/4 ->
  inverse_of 3 (shift 3 (np_transpose P_oz) l)
    (np_transpose (oz_spec (/ (1 - l)) (/ (1/4 - l)) (/ (-1/4 - l)))).
Proof.
  intros H1 H2 H3. rewrite oz_shift. split; [is_mat_tac|].
  split; unfold oz_spec; mat_simpl; lists_field.
Qed.

Lemma eig_ok_P_oz : @eig_ok la_oz 3 (np_transpose P_oz).
Proof.
  eexists. split; [reflexivity|]. cbn [eig_values eig_vectors].
  split; [reflexivity|]. split; [is_mat_tac|]. split.
  - intros i Hi. three_cases i Hi; (split; [reflexivity|]); split;
      try (exists 0%nat; split; [lia|]; simpl; unfold RtoC, C0;
           intros E; inversion E; lra);
      intros j Hj; three_cases j Hj; unfold P_oz; mat_simpl; complex_lra.
  - intros l Hs.
    destruct (Req_dec_T l 1) as [->|H1]; [now left|].
    destruct (Req_dec_T l (1/4)) as [->|H2]; [right; now left|].
    destruct (Req_dec_T l (-1/4)) as [->|H3]; [right; right; now left|].
    exfalso. apply Hs. eexists. now apply oz_shift_inverse.
Qed.

Lemma inv_ok_P_oz :
  @inv_ok la_oz 3 (madd (msub (np_identity 3) P_oz) (mpow P_oz 1000)).
Proof.
  unfold inv_ok. cbn [la_inv la_oz replay]. rewrite oz_fundamental.
  apply oz_spec_inverse.
  - unfold oz_p. pose proof oz_eps_small. lra.
  - unfold oz_q. rewrite oz_eps_even. pose proof oz_eps_small. lra.
Qed.

Lemma stochastic_P_one : stochastic 1 P_one.
Proof.
  split; [is_mat_tac|]. split.
  - intros i j Hi Hj. one_case i Hi; one_case j Hj. unfold mget, P_one.
    simpl. lra.
  - intros i Hi. one_case i Hi. unfold mget, P_one. simpl. lra.
Qed.

Lemma ergodic_P_one : ergodic 1 P_one.
Proof.
  exists 1%nat. intros i j Hi Hj. rewrite mpow_P_one.
  one_case i Hi; one_case j Hj. unfold mget, P_one. simpl. lra.
Qed.

Lemma stationary_P_one : stationary 1 P_one [1].
Proof.
  split; [reflexivity|]. split.
  - intros j Hj. one_case j Hj. unfold mget, P_one. simpl. lra.
  - simpl. lra.
Qed.

Lemma eig_ok_P_one : @eig_ok la_one 1 (np_transpose P_one).
Proof.
  eexists. split; [reflexivity|]. cbn [eig_values eig_vectors].
  split; [reflexivity|]. split; [is_mat_tac|]. split.
  - intros i Hi. one_case i Hi. split; [reflexivity|]. split.
    + exists 0%nat. split; [lia|]. simpl. unfold RtoC, C0.
      intros E; inversion E; lra.
    + intros j Hj. one_case j Hj. unfold P_one. mat_simpl. complex_lra.
  - intros l Hs. destruct (Req_dec_T l 1) as [->|H1]; [now left|].
    exfalso. apply Hs. exists [[/ (1 - l)]]. split; [is_mat_tac|].
    split; unfold P_one; mat_simpl; lists_field.
Qed.

Lemma eig_ok_P_alt : @eig_ok la_alt 2 (np_transpose P_alt).
Proof.
  eexists. split; [reflexivity|]. cbn [eig_values eig_vectors].
  split; [reflexivity|]. split; [is_mat_tac|]. split.
  - intros i Hi. two_cases i Hi; (split; [reflexivity|]); split;
      try (exists 0%nat; split; [lia|]; simpl; unfold RtoC, C0;
           intros E; inversion E; lra);
      intros j Hj; two_cases j Hj; unfold P_alt; mat_simpl; complex_lra.
  - intros l Hs.
    destruct (Req_dec_T l 2) as [->|H1]; [now left|].
    destruct (Req_dec_T l 0) as [->|H2]; [right; now left|].
    exfalso. apply Hs.
    exists [[(1 - l) / (l * (l - 2)); 1 / (l * (l - 2))];
            [1 / (l * (l - 2)); (1 - l) / (l * (l - 2))]].
    split; [is_mat_tac|].
    split; unfold P_alt; mat_simpl; lists_field.
Qed.

(** ** The claims on [steady_state] *)

Section SteadyStateClaims.

Context {la : LinAlg}.

(** C3.  For an ergodic row-stochastic [k] by [k] matrix [P], with
    [numpy.linalg.eig] keeping its contract on the transpose of [P],
    [steady_state] returns a vector of [k] entries that are all real (a
    float64 array, or a complex128 array whose imaginary parts are all 0),
    all finite and at least 0, and of sum 1. *)
Theorem steady_state_probability_vector (k : nat) (P : rmat) :
  (0 < k)%nat -> stochastic k P -> ergodic k P ->
  eig_ok k (np_transpose P) ->
  exists w : list R,
    (steady_state P = Ok (real_arr w) \/ steady_state P = Ok (complex_arr w)) /\
    length w = k /\
    Forall (fun y => 0 <= y) w /\
    vsum w = 1.
Proof.
  intros Hk Hsto Herg Heig.
  destruct (steady_state_normalised k P Hk Hsto Herg Heig) as [x [Hx Hs]].
  destruct (normalised_stationary k P Hk Hsto Herg x Hx)
    as [[Hl [_ Hsum]] Hpos].
  exists (map (normalised k x) (seq 0 k)). repeat split; try assumption.
  rewrite vsum_bigsum, Hl. exact Hsum.
Qed.

(** C4.  On the Land of Oz matrix, with [numpy.linalg.eig] keeping its
    contract on its transpose, [steady_state] returns the vector
    [0.4, 0.2, 0.4]. *)
Theorem steady_state_land_of_oz :
  eig_ok 3 (np_transpose P_oz) ->
  steady_state P_oz = Ok (real_arr [2/5; 1/5; 2/5]) \/
  steady_state P_oz = Ok (complex_arr [2/5; 1/5; 2/5]).
Proof.
  intros Heig.
  apply (steady_state_stationary 3 P_oz);
    auto using stochastic_P_oz, ergodic_P_oz, stationary_pi_oz.
Qed.

Lemma fmpt_P_one :
  inv_ok 1 (madd (msub (np_identity 1) P_one) (mpow P_one 1000)) ->
  fmpt P_one = Ok [[Fin 0]].
Proof.
  intros Hinv.
  rewrite (fmpt_eq_spec 1 P_one is_mat_P_one Hinv). unfold fmpt_spec.
  cbv zeta. unfold inv_ok in Hinv. rewrite mpow_P_one in *.
  change (ncols P_one) with 1%nat.
  destruct (la_inv (madd (msub (np_identity 1) P_one) P_one)) as [Z|e].
  - cbn [bind]. unfold mk_mat. cbn [seq map]. rewrite np_div_same.
    unfold P_one, mget. cbn [nth]. now rewrite Reqb_false by lra.
  - exfalso. destruct Hinv as [_ Hs]. apply Hs. exists [[1]].
    split; [is_mat_tac|]. split; unfold P_one; mat_simpl; lists_lra.
Qed.

(** C9.  On the one-state chain [[1]], with the two routines of
    [numpy.linalg] keeping their contracts, [steady_state] returns [1] and
    [fmpt] returns [[0]]; neither raises.  There [A] is [[1]], [I - P + A]
    is [[1]], which is invertible, and [A[0][0]] is 1. *)
Theorem single_state_chain :
  eig_ok 1 (np_transpose P_one) ->
  inv_ok 1 (madd (msub (np_identity 1) P_one) (mpow P_one 1000)) ->
  (steady_state P_one = Ok (real_arr [1]) \/
   steady_state P_one = Ok (complex_arr [1])) /\
  fmpt P_one = Ok [[Fin 0]] /\
  mpow P_one 1000 = [[1]] /\
  madd (msub (np_identity 1) P_one) (mpow P_one 1000) = [[1]] /\
  ~ singular 1 [[1]].
Proof.
  intros Heig Hinv. split; [|split; [now apply fmpt_P_one|]].
  - apply (steady_state_stationary 1 P_one);
      auto using stochastic_P_one, ergodic_P_one, stationary_P_one.
  - rewrite mpow_P_one. split; [reflexivity|]. split.
    + unfold P_one. mat_simpl. lists_lra.
    + intros Hs. apply Hs. exists [[1]]. split; [is_mat_tac|].
      split; mat_simpl; lists_lra.
Qed.

End SteadyStateClaims.

(** ** Division by a zero sum *)

Lemma np_div_zero (z : R) : nonfinite (np_div z 0).
Proof.
  unfold np_div, nonfinite. rewrite (Reqb_true 0 0) by reflexivity.
  destruct (Reqb z 0); auto.
Qed.

Lemma np_cdiv_zero (z : C) :
  nonfinite (fst (np_cdiv z C0)) /\ nonfinite (snd (np_cdiv z C0)).
Proof.
  unfold np_cdiv. rewrite Ceqb_refl. split; apply np_div_zero.
Qed.

Lemma zero_quotient_np_div (z : R) : zero_quotient z (np_div z 0).
Proof.
  unfold zero_quotient, np_div. rewrite (Reqb_true 0 0) by reflexivity.
  split; intros H.
  - now rewrite Reqb_false.
  - now rewrite Reqb_true.
Qed.

Lemma Forall2_maps {A B D} (R : B -> D -> Prop) (f : A -> B) (g : A -> D)
    (l : list A) :
  (forall a, R (f a) (g a)) -> Forall2 R (map f l) (map g l).
Proof. intros H. induction l as [|a l IH]; simpl; constructor; auto. Qed.

Section ZeroSum.

Context {la : LinAlg}.

(** C7, as amended.  When the entries of the eigenvector selected in
    [steady_state] sum to zero, the normalisation raises nothing:
    [steady_state] returns an array of the element type of the
    eigenvector, and no entry of it is finite.  Of a float64 eigenvector
    the entry is an infinity where the eigenvector is not zero and a NaN
    where it is zero; of a complex128 eigenvector the real part and the
    imaginary part of the entry are so, each from the same part of the
    eigenvector. *)
Theorem steady_state_zero_sum (P : rmat) (r : eigen) (x : list C) :
  la_eig (np_transpose P) = Ok r ->
  eig_selected r = Ok x ->
  py_sum complex128 x = C0 ->
  exists y, steady_state P = Ok y /\ all_nonfinite y /\
            zero_quotients x y /\ same_dtype r y.
Proof.
  intros Hr Hsel Hsum. unfold steady_state. rewrite Hr. cbn [bind].
  destruct r as [v d | v d]; cbn [eig_selected] in Hsel; unfold dominant.
  - destruct (selected float64 v d) as [x0|e]; [|discriminate].
    cbn [bind] in *. inversion Hsel; subst x. eexists. split; [reflexivity|].
    assert (E : py_sum float64 x0 = 0).
    { pose proof (py_sum_emb float64 RtoC RtoC_add eq_refl x0) as E.
      pose proof (py_sum_emb complex128 (fun z => z)
                    (fun _ _ => eq_refl) eq_refl (map RtoC x0)) as E'.
      cbv beta in E'. rewrite Hsum, length_map in E'.
      assert (E2 : RtoC (py_sum float64 x0) = C0).
      { rewrite E, E'. unfold Csum. f_equal; apply bigsum_ext; intros m _;
          change (dt_zero complex128) with (RtoC 0); rewrite map_nth;
          reflexivity. }
      now inversion E2. }
    rewrite E. split; [|split; [|exact I]].
    + cbn [all_nonfinite]. apply Forall_forall. intros y Hy.
      apply in_map_iff in Hy. destruct Hy as [z [<- _]]. apply np_div_zero.
    + cbn [zero_quotients]. apply Forall2_maps. intros z.
      apply zero_quotient_np_div.
  - rewrite Hsel. cbn [bind]. eexists. split; [reflexivity|].
    rewrite Hsum. split; [|split; [|exact I]].
    + cbn [all_nonfinite]. apply Forall_forall. intros y Hy.
      apply in_map_iff in Hy. destruct Hy as [z [<- _]]. apply np_cdiv_zero.
    + cbn [zero_quotients]. rewrite <- (map_id x) at 1. apply Forall2_maps.
      intros z. cbv beta. cbn [dt_div complex128]. unfold np_cdiv, id.
      rewrite Ceqb_refl. split; apply zero_quotient_np_div.
Qed.

End ZeroSum.

Lemma selected_P_alt : selected float64 [2; 0] [[1; 1]; [-1; 1]] = Ok [1; -1].
Proof.
  unfold selected, py_max, py_index. cbn [fold_left dt_gtb dt_eqb float64].
  Rdecide. cbn [bind]. Rdecide. reflexivity.
Qed.

(** C7, counterexample.  On [[1, -1], [-1, 1]] the eigenvector selected is
    [(1, -1)], of sum zero, and the call returns the array [inf, inf]: no
    error reaches the caller. *)
Lemma steady_state_zero_sum_returns :
  @eig_ok la_alt 2 (np_transpose P_alt) /\
  selected float64 [2; 0] [[1; 1]; [-1; 1]] = Ok [1; -1] /\
  py_sum float64 [1; -1] = 0 /\
  @steady_state la_alt P_alt = Ok (RealArr [Inf; Inf]).
Proof.
  split; [exact eig_ok_P_alt|].
  pose proof selected_P_alt as Hsel.
  split; [exact Hsel|]. split.
  - unfold py_sum. simpl. lra.
  - unfold steady_state. cbn [la_eig la_alt replay bind]. unfold dominant.
    rewrite Hsel. cbn [bind map py_sum fold_left dt_add dt_zero dt_div float64].
    unfold np_div. Rdecide. reflexivity.
Qed.

(** ** The diagonal of [fmpt] against the stationary distribution *)

Lemma bigsum_exists_pos (n : nat) (f : nat -> R) :
  0 < bigsum n f -> exists i, (i < n)%nat /\ 0 < f i.
Proof.
  induction n as [|n IH]; simpl; intros H; [lra|].
  destruct (Rlt_dec 0 (f n)) as [Hn|Hn].
  - exists n. split; [lia | assumption].
  - destruct IH as [i [Hi Hf]]; [lra|]. exists i. split; [lia | assumption].
Qed.

Lemma bigsum_term_le (n : nat) (f : nat -> R) (j : nat) :
  (forall i, (i < n)%nat -> 0 <= f i) -> (j < n)%nat -> f j <= bigsum n f.
Proof.
  induction n as [|n IH]; intros Hf Hj; [lia|]. simpl.
  assert (0 <= bigsum n f) by (apply bigsum_nonneg; auto with arith).
  assert (0 <= f n) by (apply Hf; lia).
  destruct (Nat.eq_dec j n) as [->|Hne]; [lra|].
  assert (f j <= bigsum n f) by (apply IH; [auto with arith | lia]). lra.
Qed.

(** The stationary distribution of an ergodic chain charges every state. *)
Lemma stationary_pos (k : nat) (P : rmat) (w : list R) (j : nat) :
  stochastic k P -> ergodic k P -> stationary k P w ->
  Forall (fun y => 0 <= y) w -> (j < k)%nat ->
  0 < nth j w 0 <= 1.
Proof.
  intros Hsto [n Hn] [Hl [Hinv Hsum]] Hpos Hj.
  assert (Hnn : forall i, (i < k)%nat -> 0 <= nth i w 0).
  { intros i Hi. rewrite Forall_forall in Hpos. apply Hpos, nth_In. lia. }
  split.
  - destruct (bigsum_exists_pos k (fun i => nth i w 0)) as [i [Hi Hwi]].
    { rewrite_sum Hsum. lra. }
    pose proof (invariant_mpow k P _ n (proj1 Hsto) Hinv j Hj) as E.
    cbv beta in E. rewrite <- E.
    apply (bigsum_pos_exists k _ i); [|assumption|].
    + intros l Hlk. apply Rmult_le_pos; [now apply Hnn|].
      apply Rlt_le. now apply Hn.
    + apply Rmult_lt_0_compat; [assumption | now apply Hn].
  - pose proof (bigsum_term_le k (fun i => nth i w 0) j Hnn Hj) as H.
    cbv beta in H. revert H. rewrite_sum Hsum. tauto.
Qed.

Section DiagonalClaim.

Context {la : LinAlg}.

(** C1, as amended.  For an ergodic row-stochastic matrix [P] on which both
    functions return (the two routines of [numpy.linalg] keeping their
    contracts), the diagonal entry [fmpt(P)[j][j]] is 0, or a NaN where
    [P ** 1000] has a zero on the diagonal, whereas [steady_state(P)[j]]
    lies in (0, 1], so that its reciprocal is at least 1: the diagonal of
    [fmpt] does not hold the mean recurrence times. *)
Theorem fmpt_diagonal_not_recurrence_time (k : nat) (P : rmat) (M : fmat) :
  (0 < k)%nat -> stochastic k P -> ergodic k P ->
  eig_ok k (np_transpose P) ->
  inv_ok k (madd (msub (np_identity k) P) (mpow P 1000)) ->
  fmpt P = Ok M ->
  exists w : list R,
    (steady_state P = Ok (real_arr w) \/ steady_state P = Ok (complex_arr w)) /\
    length w = k /\
    forall j, (j < k)%nat ->
      (fget M j j = Fin 0 \/ fget M j j = NaN) /\
      0 < nth j w 0 <= 1 /\
      1 <= 1 / nth j w 0.
Proof.
  intros Hk Hsto Herg Heig Hinv HM.
  destruct (steady_state_normalised k P Hk Hsto Herg Heig) as [x [Hx Hs]].
  destruct (normalised_stationary k P Hk Hsto Herg x Hx) as [Hst Hpos].
  exists (map (normalised k x) (seq 0 k)).
  split; [exact Hs|]. split; [apply Hst|]. intros j Hj.
  pose proof (stationary_pos k P _ j Hsto Herg Hst Hpos Hj) as Hw.
  split; [|split; [exact Hw|]].
  - rewrite (fmpt_diag k P M j (proj1 Hsto) Hinv HM Hj).
    destruct (Reqb (mget (mpow P 1000) j j) 0); auto.
  - apply (Rmult_le_reg_r (nth j (map (normalised k x) (seq 0 k)) 0));
      [tauto|].
    unfold Rdiv. rewrite Rmult_assoc, Rinv_l by lra. lra.
Qed.

End DiagonalClaim.

Lemma steady_state_la_oz :
  @steady_state la_oz P_oz = Ok (real_arr [2/5; 1/5; 2/5]).
Proof.
  destruct (@steady_state_stationary la_oz 3 P_oz ltac:(lia) stochastic_P_oz
              ergodic_P_oz eig_ok_P_oz pi_oz stationary_pi_oz) as [H|H];
    [exact H|].
  exfalso. unfold steady_state in H. cbn [la_eig la_oz replay bind] in H.
  destruct (dominant float64 _ _); discriminate H.
Qed.

(** C1, counterexample.  On the Land of Oz matrix the stationary
    probability of state 0 is 2/5, of reciprocal 5/2, and the entry [(0,0)]
    of [fmpt] is 0. *)
Lemma fmpt_diagonal_not_reciprocal :
  @steady_state la_oz P_oz = Ok (real_arr [2/5; 1/5; 2/5]) /\
  exists M, @fmpt la_oz P_oz = Ok M /\
            fget M 0 0 = Fin 0 /\
            ~ approx 0 (1 / (2/5)).
Proof.
  split; [exact steady_state_la_oz|].
  destruct (@fmpt_P_oz_entries la_oz inv_ok_P_oz)
    as [e [u [t [He [_ [_ HM]]]]]].
  eexists. split; [exact HM|]. split.
  - rewrite fget_mk_mat by lia. rewrite np_div_same.
    unfold mget, oz_spec. cbn [nth]. now rewrite Reqb_false by lra.
  - intros H. apply approx_between in H. unfold tolerance in H.
    simpl pow in H. lra.
Qed.

(** ** What a call leaves in memory *)

Lemma keeps_refl (h : heap) : keeps h h.
Proof. exists []. now rewrite app_nil_r. Qed.

Lemma keeps_alloc (h0 h : heap) (c : cell) : keeps h0 h -> keeps h0 (h ++ [c]).
Proof. intros [new ->]. exists (new ++ [c]). now rewrite app_assoc. Qed.

Lemma keeps_trans (h0 h1 h2 : heap) : keeps h0 h1 -> keeps h1 h2 -> keeps h0 h2.
Proof. intros [n1 ->] [n2 ->]. exists (n1 ++ n2). now rewrite app_assoc. Qed.

Lemma keeps_length (h0 h : heap) : keeps h0 h -> (length h0 <= length h)%nat.
Proof. intros [new ->]. rewrite length_app. lia. Qed.

Lemma keeps_nth_error (h0 h : heap) (l : loc) (c : cell) :
  keeps h0 h -> nth_error h0 l = Some c -> nth_error h l = Some c.
Proof.
  intros [new ->] H. rewrite nth_error_app1; [assumption|].
  apply nth_error_Some. congruence.
Qed.

Lemma list_set_app_r {A} (l1 l2 : list A) (i : nat) (x : A) :
  (length l1 <= i)%nat ->
  list_set (l1 ++ l2) i x = option_map (app l1) (list_set l2 (i - length l1) x).
Proof.
  revert i. induction l1 as [|a l1 IH]; intros i Hi; simpl.
  - rewrite Nat.sub_0_r. now destruct (list_set l2 i x).
  - destruct i as [|i]; [simpl in Hi; lia|]. simpl in Hi.
    rewrite IH by lia. simpl.
    now destruct (list_set l2 (i - length l1) x).
Qed.

Lemma safe_bind {A B} (h0 : heap) (Q : A -> Prop) (R : B -> Prop)
    (c : mem A) (f : A -> mem B) :
  safe h0 Q c -> (forall a, Q a -> safe h0 R (f a)) -> safe h0 R (mbind c f).
Proof.
  intros Hc Hf h Hh. unfold mbind. destruct (Hc h Hh) as [H1 H2].
  destruct (c h) as [[a|e] h']; simpl in *.
  - apply Hf; auto.
  - split; [assumption | discriminate].
Qed.

Lemma safe_lift {A} (h0 : heap) (r : result A) :
  safe h0 (fun _ => True) (mlift r).
Proof. intros h Hh. split; [assumption | auto]. Qed.

Lemma safe_read_mat (h0 : heap) (l : loc) :
  safe h0 (fun _ => True) (read_mat l).
Proof. intros h Hh. split; [assumption | auto]. Qed.

Lemma safe_alloc (h0 : heap) (c : cell) :
  safe h0 (fun l => length h0 <= l)%nat (alloc c).
Proof.
  intros h Hh. split; [now apply keeps_alloc|]. simpl.
  intros l E. injection E as <-. now apply keeps_length.
Qed.

Lemma safe_view_transpose (h0 : heap) (l : loc) :
  safe h0 (fun t => length h0 <= t)%nat (view_transpose l).
Proof.
  intros h Hh. unfold view_transpose.
  destruct (nth_error h l) as [[m|o tr|m|r|y]|];
    try (split; [assumption | discriminate]);
    now apply safe_alloc.
Qed.

Section Frame.

Context {la : LinAlg}.

Lemma safe_steady_state_mem (h0 : heap) (p : loc) :
  safe h0 (fun l => length h0 <= l)%nat (steady_state_mem p).
Proof.
  unfold steady_state_mem.
  eapply safe_bind; [apply safe_view_transpose|]. intros t _.
  eapply safe_bind; [apply safe_read_mat|]. intros Pt _.
  eapply safe_bind; [apply safe_lift|]. intros vd _.
  eapply safe_bind; [apply safe_alloc|]. intros e _.
  eapply safe_bind; [apply safe_lift|]. intros y _.
  apply safe_alloc.
Qed.

End Frame.

(** ** The statements in memory compute what the functions compute *)

Lemma nth_error_snoc_new {A} (h : list A) (c : A) :
  nth_error (h ++ [c]) (length h) = Some c.
Proof. rewrite nth_error_app2, Nat.sub_diag by lia. reflexivity. Qed.

Lemma read_mat_at (h : heap) (l : loc) (m : rmat) :
  nth_error h l = Some (CMat m) -> read_mat l h = (Ok m, h).
Proof. intros H. unfold read_mat. now rewrite H. Qed.

Lemma read_mat_view (h : heap) (l o : loc) (m : rmat) :
  nth_error h l = Some (CView o true) -> nth_error h o = Some (CMat m) ->
  read_mat l h = (Ok (np_transpose m), h).
Proof. intros H Ho. unfold read_mat. now rewrite H, Ho. Qed.

Lemma getitem_at (h : heap) (l : loc) (m : rmat) (i j : nat) :
  nth_error h l = Some (CMat m) -> getitem l i j h = (np_get m i j, h).
Proof.
  intros H. unfold getitem, mbind. rewrite (read_mat_at h l m H).
  reflexivity.
Qed.

Lemma heap_set_last (h : heap) (c c' : cell) :
  heap_set (h ++ [c]) (length h) c' = h ++ [c'].
Proof.
  unfold heap_set. rewrite list_set_app_r, Nat.sub_diag by lia. reflexivity.
Qed.

Ltac heap_lookup :=
  repeat first
    [ apply nth_error_snoc_new
    | rewrite nth_error_app1 by (rewrite ?length_app; simpl; lia) ];
  try assumption.

Section Loops.

(** The memory while the loops run: [h1], then the object [M]. *)
Variables (h1 : heap) (a z : loc) (A Z : rmat).
Hypothesis Ha : nth_error h1 a = Some (CMat A).
Hypothesis Hz : nth_error h1 z = Some (CMat Z).

Lemma fold_left_raise {S} (body : nat -> S -> result S) (l : list nat)
    (e : exn) :
  fold_left (fun acc i => s <- acc ;; body i s) l (Raise e) = Raise e.
Proof. induction l as [|i l IH]; simpl; [reflexivity | exact IH]. Qed.

Lemma mfor_rel (bodyp : nat -> fmat -> result fmat) (bodym : nat -> mem unit) :
  (forall i M, loop_rel h1 (bodyp i M) (bodym i (h1 ++ [CFMat M]))) ->
  forall l M,
    loop_rel h1 (fold_left (fun acc i => s <- acc ;; bodyp i s) l (Ok M))
             (mfor l bodym (h1 ++ [CFMat M])).
Proof.
  intros Hbody l. induction l as [|i l IH]; intros M.
  - simpl. exists M. split; [reflexivity|]. split; reflexivity.
  - cbn [fold_left mfor bind]. unfold mbind.
    destruct (Hbody i M) as [M1 [Hheap Hres]].
    destruct (bodym i (h1 ++ [CFMat M])) as [r hh]. cbn [fst snd] in *.
    subst hh. destruct (bodyp i M) as [M'|e].
    + destruct Hres as [-> ->]. apply IH.
    + subst r. rewrite fold_left_raise. exists M1. split; reflexivity.
Qed.

Lemma fmpt_entry_rel (i j : nat) (M : fmat) :
  loop_rel h1 (fmpt_entry A Z i j M)
           (fmpt_entry_mem a z (length h1) i j (h1 ++ [CFMat M])).
Proof.
  unfold fmpt_entry, fmpt_entry_mem, mbind.
  assert (Ha' : nth_error (h1 ++ [CFMat M]) a = Some (CMat A))
    by (rewrite nth_error_app1; [assumption | apply nth_error_Some; congruence]).
  assert (Hz' : nth_error (h1 ++ [CFMat M]) z = Some (CMat Z))
    by (rewrite nth_error_app1; [assumption | apply nth_error_Some; congruence]).
  rewrite (getitem_at _ z Z j j Hz').
  destruct (np_get Z j j) as [zjj|e]; cbn [bind];
    [|exists M; split; reflexivity].
  rewrite (getitem_at _ z Z i j Hz').
  destruct (np_get Z i j) as [zij|e]; cbn [bind];
    [|exists M; split; reflexivity].
  rewrite (getitem_at _ a A j j Ha').
  destruct (np_get A j j) as [ajj|e]; cbn [bind];
    [|exists M; split; reflexivity].
  unfold setitem. rewrite nth_error_snoc_new.
  destruct (np_set M i j (np_div (zjj - zij) ajj)) as [M'|e].
  - exists M'. rewrite heap_set_last. split; [reflexivity|]. split; reflexivity.
  - exists M. split; reflexivity.
Qed.

Lemma fmpt_loops_rel (k : nat) (M : fmat) :
  loop_rel h1
    (for_range k (fun i M => for_range k (fun j M => fmpt_entry A Z i j M) M) M)
    (for_range_mem k
       (fun i => for_range_mem k (fun j => fmpt_entry_mem a z (length h1) i j))
       (h1 ++ [CFMat M])).
Proof.
  unfold for_range, for_range_mem.
  apply (mfor_rel
           (fun i M => fold_left
                         (fun acc j => s <- acc ;; fmpt_entry A Z i j s)
                         (seq 0 k) (Ok M))).
  intros i M'. apply (mfor_rel (fun j M => fmpt_entry A Z i j M)).
  intros j M''. apply fmpt_entry_rel.
Qed.

End Loops.

Section MemValue.

Context {la : LinAlg}.

Lemma steady_state_mem_value (h : heap) (p : loc) (P : rmat) :
  nth_error h p = Some (CMat P) ->
  match steady_state P with
  | Ok y => exists l, fst (steady_state_mem p h) = Ok l /\
                      nth_error (snd (steady_state_mem p h)) l = Some (CArr y)
  | Raise e => fst (steady_state_mem p h) = Raise e
  end.
Proof.
  intros Hp. assert (Hlt : (p < length h)%nat)
    by (apply nth_error_Some; congruence).
  unfold steady_state_mem, steady_state, mbind, view_transpose.
  rewrite Hp. cbn [alloc].
  rewrite (read_mat_view _ _ p P) by heap_lookup.
  unfold mlift.
  destruct (la_eig (np_transpose P)) as [r|e]; [|reflexivity]. cbn [bind].
  destruct r as [v d | v d].
  - destruct (dominant float64 v d) as [y|e]; [|reflexivity]. cbn [bind].
    eexists. cbn [fst snd]. split; [reflexivity | apply nth_error_snoc_new].
  - destruct (dominant complex128 v d) as [y|e]; [|reflexivity]. cbn [bind].
    eexists. cbn [fst snd]. split; [reflexivity | apply nth_error_snoc_new].
Qed.

(** Reading an object gives the same matrix in any memory that keeps the
    one it was read in. *)
Lemma read_mat_keeps (h h' : heap) (p : loc) (P : rmat) :
  keeps h h' -> fst (read_mat p h) = Ok P -> fst (read_mat p h') = Ok P.
Proof.
  intros Hk. unfold read_mat. cbn [fst].
  destruct (nth_error h p) as [c|] eqn:E; [|discriminate].
  rewrite (keeps_nth_error h h' p c Hk E).
  destruct c as [m|o tr|m|r|y]; try discriminate; [auto|].
  destruct (nth_error h o) as [c|] eqn:Eo; [|discriminate].
  now rewrite (keeps_nth_error h h' o c Hk Eo).
Qed.

Lemma read_mat_ok (h : heap) (l : loc) (m : rmat) :
  fst (read_mat l h) = Ok m -> read_mat l h = (Ok m, h).
Proof. unfold read_mat. cbn [fst]. intros ->. reflexivity. Qed.

Lemma read_mat_raise (h : heap) (l : loc) (e : exn) :
  fst (read_mat l h) = Raise e -> read_mat l h = (Raise e, h).
Proof. unfold read_mat. cbn [fst]. intros ->. reflexivity. Qed.

Ltac keeps_allocs :=
  cbn [fst snd]; repeat apply keeps_alloc; apply keeps_refl.

(** A run of [fmpt] on an object that reads as the matrix [P]: the memory
    it leaves keeps the one it started in, and the object returned is a new
    one that holds [fmpt P]. *)
Lemma fmpt_mem_run (h : heap) (p : loc) (P : rmat) :
  fst (read_mat p h) = Ok P ->
  keeps h (snd (fmpt_mem p h)) /\
  match fmpt P with
  | Ok M => exists l, fst (fmpt_mem p h) = Ok l /\ (length h <= l)%nat /\
                      nth_error (snd (fmpt_mem p h)) l = Some (CFMat M)
  | Raise e => fst (fmpt_mem p h) = Raise e
  end.
Proof.
  intros Hp.
  assert (Hread : forall h', keeps h h' -> read_mat p h' = (Ok P, h'))
    by (intros h' K; apply read_mat_ok, (read_mat_keeps h h' p P K Hp)).
  unfold fmpt_mem, fmpt, mbind, mlift.
  rewrite (Hread h (keeps_refl h)).
  destruct (np_matrix_power P 1000) as [A|e];
    [|split; [keeps_allocs | reflexivity]].
  cbn [bind alloc].
  rewrite (read_mat_at _ (length h) A) by heap_lookup.
  destruct (shape A) as [n k]. cbn [alloc].
  rewrite (read_mat_at _ _ (np_identity k)) by heap_lookup.
  rewrite Hread by keeps_allocs.
  rewrite (read_mat_at _ _ (msub (np_identity k) P)) by heap_lookup.
  rewrite (read_mat_at _ (length h) A) by heap_lookup.
  rewrite (read_mat_at _ _ (madd (msub (np_identity k) P) A)) by heap_lookup.
  destruct (la_inv (madd (msub (np_identity k) P) A)) as [Z|e];
    [|split; [keeps_allocs | reflexivity]].
  cbn [bind].
  rewrite (read_mat_at _ _ Z) by heap_lookup.
  set (h1 := ((((h ++ [CMat A]) ++ [CMat (np_identity k)]) ++
                 [CMat (msub (np_identity k) P)]) ++
                [CMat (madd (msub (np_identity k) P) A)]) ++ [CMat Z]).
  assert (K1 : keeps h h1) by (unfold h1; keeps_allocs).
  assert (Ha : nth_error h1 (length h) = Some (CMat A))
    by (unfold h1; heap_lookup).
  assert (Hz : nth_error h1
                 (length ((((h ++ [CMat A]) ++ [CMat (np_identity k)]) ++
                             [CMat (msub (np_identity k) P)]) ++
                            [CMat (madd (msub (np_identity k) P) A)]))
               = Some (CMat Z))
    by (unfold h1; heap_lookup).
  destruct (fmpt_loops_rel h1 _ _ A Z Ha Hz k (np_zeros_like Z))
    as [M [Hheap Hres]].
  destruct (for_range_mem k _ (h1 ++ [CFMat (np_zeros_like Z)])) as [r hh].
  cbn [fst snd] in *. subst hh.
  destruct (for_range k _ (np_zeros_like Z)) as [M'|e].
  - destruct Hres as [-> ->]. cbn [mret fst snd].
    split; [now apply keeps_alloc|]. exists (length h1).
    split; [reflexivity|]. split; [now apply keeps_length|].
    apply nth_error_snoc_new.
  - subst r. split; [now apply keeps_alloc | reflexivity].
Qed.

Lemma fmpt_mem_value (h : heap) (p : loc) (P : rmat) :
  nth_error h p = Some (CMat P) ->
  match fmpt P with
  | Ok M => exists l, fst (fmpt_mem p h) = Ok l /\
                      nth_error (snd (fmpt_mem p h)) l = Some (CFMat M)
  | Raise e => fst (fmpt_mem p h) = Raise e
  end.
Proof.
  intros Hp.
  assert (HP : fst (read_mat p h) = Ok P)
    by (now rewrite (read_mat_at h p P Hp)).
  destruct (fmpt_mem_run h p P HP) as [_ H].
  destruct (fmpt P) as [M|e]; [|exact H].
  destruct H as [l [H1 [_ H2]]]. now exists l.
Qed.

Lemma fmpt_mem_raise (h : heap) (p : loc) (e : exn) :
  fst (read_mat p h) = Raise e -> fmpt_mem p h = (Raise e, h).
Proof.
  intros H. unfold fmpt_mem, mbind. now rewrite (read_mat_raise h p e H).
Qed.

Lemma keeps_fmpt_mem (h : heap) (p : loc) : keeps h (snd (fmpt_mem p h)).
Proof.
  destruct (fst (read_mat p h)) as [P|e] eqn:E.
  - exact (proj1 (fmpt_mem_run h p P E)).
  - rewrite (fmpt_mem_raise h p e E). apply keeps_refl.
Qed.

Lemma fmpt_mem_new (h : heap) (p l : loc) :
  fst (fmpt_mem p h) = Ok l -> (length h <= l)%nat.
Proof.
  intros Hl. destruct (fst (read_mat p h)) as [P|e] eqn:E.
  - destruct (fmpt_mem_run h p P E) as [_ H].
    destruct (fmpt P) as [M|e'].
    + destruct H as [l' [H1 [H2 _]]]. rewrite Hl in H1.
      injection H1 as <-. exact H2.
    + rewrite Hl in H. discriminate H.
  - rewrite (fmpt_mem_raise h p e E) in Hl. discriminate Hl.
Qed.

Lemma safe_fmpt_mem (h0 : heap) (p : loc) :
  safe h0 (fun l => length h0 <= l)%nat (fmpt_mem p).
Proof.
  intros h Hh. split.
  - exact (keeps_trans h0 h _ Hh (keeps_fmpt_mem h p)).
  - intros l Hl. pose proof (fmpt_mem_new h p l Hl).
    pose proof (keeps_length h0 h Hh). lia.
Qed.

(** An assignment into the input is a statement like any other: it
    overwrites the data of the object, directly or through a view such as
    the transpose, after which the object reads otherwise and the memory no
    longer keeps the one before. *)
Lemma setitem_overwrites :
  fst (read_mat 0%nat
         (snd (setitem 0%nat 0%nat 1%nat (Fin 7) [CMat [[1; 2]; [3; 4]]])))
    = Ok [[1; 7]; [3; 4]] /\
  fst (read_mat 0%nat
         (snd (setitem 1%nat 0%nat 1%nat (Fin 7)
                 [CMat [[1; 2]; [3; 4]]; CView 0%nat true])))
    = Ok [[1; 2]; [7; 4]] /\
  ~ keeps [CMat [[1; 2]; [3; 4]]]
      (snd (setitem 0%nat 0%nat 1%nat (Fin 7) [CMat [[1; 2]; [3; 4]]])).
Proof.
  split; [reflexivity|]. split; [reflexivity|].
  intros [new H]. cbn in H. inversion H. lra.
Qed.

(** C10.  In whatever memory [h] and on whatever object [p] the two
    functions are called, and whether they return or raise, the memory they
    leave is [h] followed by the objects allocated during the call: the
    matrix read at [p] is the same after the call as before, no object of
    the caller is written, and the array returned is a new object.  Called
    on an array that holds the matrix [P], they return in that new object
    what [steady_state P] and [fmpt P] compute, and raise when those raise.
    Of the intermediate results the transpose is a new view on the data of
    [P], which is only read; the others own their data. *)
Theorem calls_leave_input_unchanged (h : heap) (p : loc) :
  keeps h (snd (steady_state_mem p h)) /\
  keeps h (snd (fmpt_mem p h)) /\
  (forall P, fst (read_mat p h) = Ok P ->
     fst (read_mat p (snd (steady_state_mem p h))) = Ok P /\
     fst (read_mat p (snd (fmpt_mem p h))) = Ok P) /\
  (forall l, fst (steady_state_mem p h) = Ok l -> (length h <= l)%nat) /\
  (forall l, fst (fmpt_mem p h) = Ok l -> (length h <= l)%nat) /\
  (forall P, nth_error h p = Some (CMat P) ->
     match steady_state P with
     | Ok y => exists l, fst (steady_state_mem p h) = Ok l /\
                         nth_error (snd (steady_state_mem p h)) l
                           = Some (CArr y)
     | Raise e => fst (steady_state_mem p h) = Raise e
     end /\
     match fmpt P with
     | Ok M => exists l, fst (fmpt_mem p h) = Ok l /\
                         nth_error (snd (fmpt_mem p h)) l = Some (CFMat M)
     | Raise e => fst (fmpt_mem p h) = Raise e
     end).
Proof.
  destruct (safe_steady_state_mem h p h (keeps_refl h)) as [K1 F1].
  destruct (safe_fmpt_mem h p h (keeps_refl h)) as [K2 F2].
  split; [exact K1|]. split; [exact K2|]. split; [|split; [|split]].
  - intros P HP. split.
    + exact (read_mat_keeps h _ p P K1 HP).
    + exact (read_mat_keeps h _ p P K2 HP).
  - exact F1.
  - exact F2.
  - intros P HP. split.
    + exact (steady_state_mem_value h p P HP).
    + exact (fmpt_mem_value h p P HP).
Qed.

End MemValue.

(** ** The theorems at the examples *)

Lemma fmpt_la_oz : @fmpt la_oz P_oz = Ok M_oz.
Proof.
  rewrite (@fmpt_eq_spec la_oz 3 P_oz is_mat_P_oz inv_ok_P_oz).
  unfold fmpt_spec. cbv zeta.
  rewrite (ncols_is_mat 3 _ (is_mat_mpow 3 P_oz 1000 is_mat_P_oz)).
  reflexivity.
Qed.

Lemma fmpt_refines_spec_witness : @fmpt la_oz P_oz = @fmpt_spec la_oz P_oz.
Proof.
  apply (@fmpt_refines_spec la_oz 3 P_oz);
    [exact is_mat_P_oz | exact inv_ok_P_oz].
Defined.


Lemma steady_state_probability_vector_witness :
  exists w : list R,
    (@steady_state la_oz P_oz = Ok (real_arr w) \/
     @steady_state la_oz P_oz = Ok (complex_arr w)) /\
    length w = 3%nat /\
    Forall (fun y => 0 <= y) w /\
    vsum w = 1.
Proof.
  apply (@steady_state_probability_vector la_oz 3 P_oz);
    [lia | exact stochastic_P_oz | exact ergodic_P_oz | exact eig_ok_P_oz].
Defined.

Lemma steady_state_land_of_oz_witness :
  @steady_state la_oz P_oz = Ok (real_arr [2/5; 1/5; 2/5]) \/
  @steady_state la_oz P_oz = Ok (complex_arr [2/5; 1/5; 2/5]).
Proof. apply (@steady_state_land_of_oz la_oz). exact eig_ok_P_oz. Defined.

Lemma fmpt_land_of_oz_witness :
  exists M : rmat,
    @fmpt la_oz P_oz = Ok (map (map Fin) M) /\
    is_mat 3 3 M /\
    (forall i j, (i < 3)%nat -> (j < 3)%nat ->
       approx (mget M i j) (mget fmpt_oz i j)) /\
    mget M 0 1 <> mget M 1 0.
Proof. apply (@fmpt_land_of_oz la_oz). exact inv_ok_P_oz. Defined.

Lemma single_state_chain_witness :
  (@steady_state la_one P_one = Ok (real_arr [1]) \/
   @steady_state la_one P_one = Ok (complex_arr [1])) /\
  @fmpt la_one P_one = Ok [[Fin 0]] /\
  mpow P_one 1000 = [[1]] /\
  madd (msub (np_identity 1) P_one) (mpow P_one 1000) = [[1]] /\
  ~ singular 1 [[1]].
Proof.
  apply (@single_state_chain la_one);
    [exact eig_ok_P_one | exact inv_ok_P_one].
Defined.

Lemma steady_state_zero_sum_witness :
  exists y, @steady_state la_alt P_alt = Ok y /\ all_nonfinite y /\
            zero_quotients [RtoC 1; RtoC (-1)] y /\
            same_dtype (EigReal [2; 0] [[1; 1]; [-1; 1]]) y.
Proof.
  apply (@steady_state_zero_sum la_alt P_alt
           (EigReal [2; 0] [[1; 1]; [-1; 1]]) [RtoC 1; RtoC (-1)]).
  - reflexivity.
  - cbn [eig_selected]. rewrite selected_P_alt. reflexivity.
  - unfold py_sum. cbn [fold_left dt_add dt_zero complex128].
    unfold Cadd, RtoC, C0, Re, Im. simpl. f_equal; lra.
Defined.

Lemma calls_leave_input_unchanged_witness :
  (fst (read_mat 0%nat (snd (@steady_state_mem la_one 0%nat [CMat P_one])))
     = Ok P_one /\
   fst (read_mat 0%nat (snd (@fmpt_mem la_one 0%nat [CMat P_one])))
     = Ok P_one) /\
  (exists l, fst (@fmpt_mem la_one 0%nat [CMat P_one]) = Ok l /\
             nth_error (snd (@fmpt_mem la_one 0%nat [CMat P_one])) l
               = Some (CFMat [[Fin 0]])).
Proof.
  pose proof (@calls_leave_input_unchanged la_one [CMat P_one] 0%nat)
    as [_ [_ [Hread [_ [_ Hval]]]]].
  split.
  - apply Hread. reflexivity.
  - assert (H : forall P, P_one = P -> @fmpt la_one P = Ok [[Fin 0]] ->
                 exists l,
                   fst (@fmpt_mem la_one 0%nat [CMat P_one]) = Ok l /\
                   nth_error (snd (@fmpt_mem la_one 0%nat [CMat P_one])) l
                     = Some (CFMat [[Fin 0]])).
    { intros P EP E. pose proof (proj2 (Hval P (f_equal _ (f_equal CMat EP))))
        as H. rewrite E in H. exact H. }
    exact (H P_one eq_refl (@fmpt_P_one la_one inv_ok_P_one)).
Defined.

Lemma fmpt_diagonal_not_recurrence_time_witness :
  exists w : list R,
    (@steady_state la_oz P_oz = Ok (real_arr w) \/
     @steady_state la_oz P_oz = Ok (complex_arr w)) /\
    length w = 3%nat /\
    forall j, (j < 3)%nat ->
      (fget M_oz j j = Fin 0 \/ fget M_oz j j = NaN) /\
      0 < nth j w 0 <= 1 /\
      1 <= 1 / nth j w 0.
Proof.
  apply (@fmpt_diagonal_not_recurrence_time la_oz 3 P_oz M_oz);
    [lia | exact stochastic_P_oz | exact ergodic_P_oz | exact eig_ok_P_oz
    | exact inv_ok_P_oz | exact fmpt_la_oz].
Defined.

(* ================================================================== *)
(** * Further properties of the two functions *)

(** ** The eigenvalue [steady_state] selects *)

Lemma py_max_float_fold (t : list R) (x : R) :
  let m := fold_left (fun m y => if Rgtb y m then y else m) t x in
  In m (x :: t) /\ forall y, In y (x :: t) -> y <= m.
Proof.
  revert x. induction t as [|z t IH]; intros x; cbn [fold_left].
  - split; [now left|]. intros y [<-|[]]. lra.
  - destruct (IH (if Rgtb z x then z else x)) as [Hin Hmax].
    split.
    + destruct Hin as [E|Hin]; [|right; now right].
      rewrite <- E. destruct (Rgtb z x); [right; now left | now left].
    + intros y Hy.
      assert (Hx : x <= if Rgtb z x then z else x).
      { destruct (Rgtb z x) eqn:E; [apply Rgtb_lt in E|]; lra. }
      assert (Hz : z <= if Rgtb z x then z else x).
      { unfold Rgtb. destruct (Rlt_dec x z); lra. }
      pose proof (Hmax _ (or_introl eq_refl)) as Hacc.
      destruct Hy as [<-|[<-|Hy]]; [lra | lra |].
      apply Hmax. now right.
Qed.

Lemma py_max_float (v : list R) (mv : R) :
  py_max float64 v = Ok mv -> In mv v /\ forall y, In y v -> y <= mv.
Proof.
  destruct v as [|x t]; [discriminate|]. cbn [py_max dt_gtb float64].
  intros E. injection E as <-. apply py_max_float_fold.
Qed.

Lemma py_index_float (v : list R) (x : R) (i : nat) :
  py_index float64 v x = Ok i ->
  (i < length v)%nat /\ nth i v 0 = x /\
  forall j, (j < i)%nat -> nth j v 0 <> x.
Proof.
  revert i. induction v as [|y t IH]; intros i; [discriminate|].
  cbn [py_index dt_eqb float64].
  destruct (Reqb y x) eqn:E.
  - intros H. injection H as <-. apply Reqb_eq in E.
    repeat split; [simpl; lia | assumption | intros j Hj; lia].
  - destruct (py_index float64 t x) as [i'|e]; [|discriminate].
    cbn [bind]. intros H. injection H as <-.
    destruct (IH i' eq_refl) as [Hlt [Hnth Hfirst]].
    repeat split; [simpl; lia | assumption |].
    intros [|j] Hj; cbn [nth].
    + intros Eyx. apply Reqb_eq in Eyx. congruence.
    + apply Hfirst. lia.
Qed.

(** X1.  Among equal greatest eigenvalues the first one counts:
    [steady_state] normalises the column of [d] at the least position [i]
    whose eigenvalue is the greatest, every eigenvalue before it being
    strictly smaller. *)
Theorem selected_first_greatest (v : list R) (d : rmat) (x : list R) :
  selected float64 v d = Ok x ->
  exists i, (i < length v)%nat /\
            np_col d i = Ok x /\
            (forall j, (j < length v)%nat -> nth j v 0 <= nth i v 0) /\
            (forall j, (j < i)%nat -> nth j v 0 < nth i v 0).
Proof.
  unfold selected. destruct (py_max float64 v) as [mv|e] eqn:Emax;
    [|discriminate].
  cbn [bind]. destruct (py_index float64 v mv) as [i|e] eqn:Eidx;
    [|discriminate].
  cbn [bind]. intros Hcol.
  destruct (py_max_float v mv Emax) as [_ Hmax].
  destruct (py_index_float v mv i Eidx) as [Hlt [Hnth Hfirst]].
  exists i. split; [assumption|]. split; [assumption|]. rewrite Hnth. split.
  - intros j Hj. apply Hmax, nth_In, Hj.
  - intros j Hj.
    assert (nth j v 0 <= mv) by (apply Hmax, nth_In; lia).
    specialize (Hfirst j Hj). lra.
Qed.

Lemma selected_first_greatest_witness :
  exists i, (i < length [1; 1])%nat /\
            np_col I_2 i = Ok [1; 0] /\
            (forall j, (j < length [1; 1])%nat ->
               nth j [1; 1] 0 <= nth i [1; 1] 0) /\
            (forall j, (j < i)%nat -> nth j [1; 1] 0 < nth i [1; 1] 0).
Proof.
  apply (selected_first_greatest [1; 1] I_2 [1; 0]).
  unfold selected, py_max, py_index. cbn [fold_left dt_gtb dt_eqb float64].
  Rdecide. cbn [bind]. Rdecide. reflexivity.
Defined.

Section GreatestEigenvalue.

Context {la : LinAlg}.

Lemma eig_values_at_most_one (k : nat) (P : rmat) (r : eigen) (y : C) :
  stochastic k P ->
  length (eig_values r) = k ->
  (forall i, (i < k)%nat ->
     eigenpair k (np_transpose P) (nth i (eig_values r) C0)
       (column (eig_vectors r) i)) ->
  In y (eig_values r) -> Cgtb y (RtoC 1) = false.
Proof.
  intros Hsto Hlen Hpairs Hy.
  destruct (In_nth _ y C0 Hy) as [i [Hi <-]].
  apply Cgtb_one_false.
  apply (eigenvalue_modulus k P _ (column (eig_vectors r) i) Hsto).
  apply Hpairs. lia.
Qed.

(** X2.  The comment of line 42 holds of every row-stochastic matrix, regular
    or not: with [numpy.linalg.eig] keeping its contract on the transpose of
    [P], the greatest eigenvalue, which [max(v)] returns, is 1. *)
Theorem greatest_eigenvalue_one (k : nat) (P : rmat) :
  (0 < k)%nat -> stochastic k P -> eig_ok k (np_transpose P) ->
  exists r, la_eig (np_transpose P) = Ok r /\
            match r with
            | EigReal v _ => py_max float64 v = Ok 1
            | EigComplex v _ => py_max complex128 v = Ok (RtoC 1)
            end.
Proof.
  intros Hk Hsto [r [Hr [Hlen [Hd [Hpairs Hcomplete]]]]].
  exists r. split; [exact Hr|].
  pose proof (Hcomplete 1 (singular_shift_one k P Hk Hsto)) as Hone.
  pose proof (eig_values_at_most_one k P r) as Hall.
  destruct r as [v d | v d]; cbn [eig_values] in *.
  - destruct (py_max_top float64 RtoC RtoC_gtb (RtoC 1) v Hone)
      as [mv [Hmax Emv]].
    + intros y Hy. apply (Hall (RtoC y)); auto. now apply in_map.
    + rewrite Hmax. inversion Emv. reflexivity.
  - assert (Hone' : In (RtoC 1) (map (fun z => z) v)) by now rewrite map_same.
    destruct (py_max_top complex128 (fun z => z) (fun _ _ => eq_refl)
                (RtoC 1) v Hone')
      as [mv [Hmax Emv]].
    + intros y Hy. now apply Hall.
    + now rewrite Hmax, Emv.
Qed.

(** X3.  What [steady_state] returns on an ergodic row-stochastic matrix is
    invariant under the chain, [w P = w], and is the only vector of sum 1
    that is: the stationary distribution. *)
Theorem steady_state_invariant (k : nat) (P : rmat) :
  (0 < k)%nat -> stochastic k P -> ergodic k P ->
  eig_ok k (np_transpose P) ->
  exists w : list R,
    (steady_state P = Ok (real_arr w) \/ steady_state P = Ok (complex_arr w)) /\
    stationary k P w /\
    forall p, stationary k P p -> p = w.
Proof.
  intros Hk Hsto Herg Heig.
  destruct (steady_state_normalised k P Hk Hsto Herg Heig) as [x [Hx Hs]].
  destruct (normalised_stationary k P Hk Hsto Herg x Hx) as [Hst _].
  exists (map (normalised k x) (seq 0 k)).
  split; [exact Hs|]. split; [exact Hst|].
  intros p Hp. now apply (stationary_unique k P Hsto Herg).
Qed.

End GreatestEigenvalue.

Lemma greatest_eigenvalue_one_witness :
  exists r, @la_eig la_oz (np_transpose P_oz) = Ok r /\
            match r with
            | EigReal v _ => py_max float64 v = Ok 1
            | EigComplex v _ => py_max complex128 v = Ok (RtoC 1)
            end.
Proof.
  apply (@greatest_eigenvalue_one la_oz 3 P_oz);
    [lia | exact stochastic_P_oz | exact eig_ok_P_oz].
Defined.

Lemma steady_state_invariant_witness :
  exists w : list R,
    (@steady_state la_oz P_oz = Ok (real_arr w) \/
     @steady_state la_oz P_oz = Ok (complex_arr w)) /\
    stationary 3 P_oz w /\
    forall p, stationary 3 P_oz p -> p = w.
Proof.
  apply (@steady_state_invariant la_oz 3 P_oz);
    [lia | exact stochastic_P_oz | exact ergodic_P_oz | exact eig_ok_P_oz].
Defined.

(** ** The length and sign of the eigenvectors *)

Lemma nth_error_combine {A B} (l1 : list A) (l2 : list B) (i : nat) (a : A)
    (b : B) :
  nth_error l1 i = Some a -> nth_error l2 i = Some b ->
  nth_error (combine l1 l2) i = Some (a, b).
Proof.
  revert l2 i. induction l1 as [|x l1 IH]; intros l2 i H1 H2.
  - destruct i; discriminate.
  - destruct l2 as [|y l2]; [destruct i; discriminate|].
    destruct i as [|i]; simpl in *.
    + congruence.
    + now apply IH.
Qed.

Lemma np_col_scale_cols (cs : list R) (d : rmat) (i : nat) (c : R)
    (x : list R) :
  nth_error cs i = Some c -> np_col d i = Ok x ->
  np_col (scale_cols cs d) i = Ok (map (Rmult c) x).
Proof.
  intros Hc. revert x. induction d as [|r d IH]; intros x; cbn [np_col].
  - intros E. injection E as <-. reflexivity.
  - destruct (nth_error r i) as [y|] eqn:Er; [|discriminate].
    destruct (np_col d i) as [t|e]; [|discriminate]. cbn [bind].
    intros E. injection E as <-.
    unfold scale_cols in *. cbn [map np_col].
    rewrite (map_nth_error _ _ _ (nth_error_combine cs r i c y Hc Er)).
    rewrite (IH t eq_refl). reflexivity.
Qed.

Lemma py_sum_scale (c : R) (x : list R) :
  py_sum float64 (map (Rmult c) x) = c * py_sum float64 x.
Proof.
  unfold py_sum. cbn [dt_add dt_zero float64].
  assert (H : forall acc,
            fold_left Rplus (map (Rmult c) x) (c * acc) =
            c * fold_left Rplus x acc).
  { induction x as [|y x IH]; intros acc; [reflexivity|].
    cbn [map fold_left]. rewrite <- IH. f_equal. lra. }
  rewrite <- H. f_equal. lra.
Qed.

Lemma np_div_scale (c z s : R) :
  c <> 0 -> s <> 0 -> np_div (c * z) (c * s) = np_div z s.
Proof.
  intros Hc Hs. unfold np_div.
  rewrite (Reqb_false s 0 Hs), (Reqb_false (c * s) 0); [|nra].
  f_equal. now field.
Qed.

(** X4.  Eigenvectors are determined up to a non-zero factor only, and the
    normalisation cancels it: two answers of [numpy.linalg.eig] with the
    same eigenvalues, whose eigenvectors differ column by column by non-zero
    factors, give the same result of [steady_state], as long as the entries
    of the selected eigenvector do not sum to zero. *)
Theorem steady_state_scale_free (la1 la2 : LinAlg) (P : rmat) (v : list R)
    (d : rmat) (cs x : list R) :
  @la_eig la1 (np_transpose P) = Ok (EigReal v d) ->
  @la_eig la2 (np_transpose P) = Ok (EigReal v (scale_cols cs d)) ->
  length cs = length v ->
  (forall c, In c cs -> c <> 0) ->
  selected float64 v d = Ok x ->
  py_sum float64 x <> 0 ->
  @steady_state la2 P = @steady_state la1 P.
Proof.
  intros H1 H2 Hlen Hnz Hsel Hsum.
  unfold steady_state. rewrite H1, H2. cbn [bind]. unfold dominant.
  rewrite Hsel. cbn [bind]. unfold selected in *.
  destruct (py_max float64 v) as [mv|e]; [|discriminate]. cbn [bind] in *.
  destruct (py_index float64 v mv) as [i|e] eqn:Eidx; [|discriminate].
  cbn [bind] in *.
  destruct (py_index_float v mv i Eidx) as [Hi _].
  destruct (nth_error cs i) as [c|] eqn:Ec;
    [|apply nth_error_None in Ec; lia].
  rewrite (np_col_scale_cols cs d i c x Ec Hsel). cbn [bind].
  do 2 f_equal. rewrite map_map, py_sum_scale. apply map_ext. intros z.
  cbn [dt_div float64]. apply np_div_scale; [|assumption].
  apply Hnz. eapply nth_error_In, Ec.
Qed.

Lemma steady_state_scale_free_witness :
  @steady_state la_oz_scaled P_oz = @steady_state la_oz P_oz.
Proof.
  apply (steady_state_scale_free la_oz la_oz_scaled P_oz [1; 1/4; -1/4]
           [[2/3; 1; 1]; [1/3; 0; -2]; [2/3; -1; 1]] [3; -1; 2]
           [2/3; 1/3; 2/3]).
  - reflexivity.
  - reflexivity.
  - reflexivity.
  - intros c [<-|[<-|[<-|[]]]]; lra.
  - unfold selected, py_max, py_index. cbn [fold_left dt_gtb dt_eqb float64].
    Rdecide. cbn [bind]. Rdecide. reflexivity.
  - unfold py_sum. simpl. lra.
Defined.

(** ** Chains whose stationary distribution is known in closed form *)

Lemma is_mat_P_two (a b : R) : is_mat 2 2 (P_two a b).
Proof. is_mat_tac. Qed.

Lemma stochastic_P_two (a b : R) :
  0 <= a <= 1 -> 0 <= b <= 1 -> stochastic 2 (P_two a b).
Proof.
  intros Ha Hb. split; [is_mat_tac|]. split.
  - intros i j Hi Hj. two_cases i Hi; two_cases j Hj;
      unfold mget, P_two; simpl; lra.
  - intros i Hi. two_cases i Hi; unfold mget, P_two; simpl; lra.
Qed.

Lemma ergodic_P_two (a b : R) :
  0 < a <= 1 -> 0 < b <= 1 -> a + b < 2 -> ergodic 2 (P_two a b).
Proof.
  intros Ha Hb Hab. exists 2%nat. intros i j Hi Hj.
  assert (H1 : 0 < a * b) by (apply Rmult_lt_0_compat; lra).
  assert (H2 : 0 < a * (2 - a - b)) by (apply Rmult_lt_0_compat; lra).
  assert (H3 : 0 < b * (2 - a - b)) by (apply Rmult_lt_0_compat; lra).
  assert (H4 : 0 <= (1 - a) * (1 - a)) by (apply Rmult_le_pos; lra).
  assert (H5 : 0 <= (1 - b) * (1 - b)) by (apply Rmult_le_pos; lra).
  two_cases i Hi; two_cases j Hj; unfold P_two; repeat (progress mat_simpl); nra.
Qed.

Lemma stationary_P_two (a b : R) :
  0 < a + b -> stationary 2 (P_two a b) [b / (a + b); a / (a + b)].
Proof.
  intros Hab. split; [reflexivity|]. split.
  - intros j Hj. two_cases j Hj; unfold mget, P_two; simpl; field; lra.
  - simpl. field. lra.
Qed.

Lemma bigsum_const (n : nat) (c : R) : bigsum n (fun _ => c) = INR n * c.
Proof.
  induction n as [|n IH]; [simpl; lra|].
  cbn [bigsum]. rewrite IH, S_INR. lra.
Qed.

Lemma nth_repeat_lt (c : R) (n i : nat) :
  (i < n)%nat -> nth i (repeat c n) 0 = c.
Proof.
  revert i. induction n as [|n IH]; intros i Hi; [lia|].
  destruct i as [|i]; simpl; [reflexivity | apply IH; lia].
Qed.

Lemma stationary_uniform (k : nat) (P : rmat) :
  (0 < k)%nat ->
  (forall j, (j < k)%nat -> bigsum k (fun i => mget P i j) = 1) ->
  stationary k P (repeat (/ INR k) k).
Proof.
  intros Hk Hcol. assert (HI : 0 < INR k) by now apply lt_0_INR.
  split; [apply repeat_length|]. split.
  - intros j Hj. rewrite nth_repeat_lt by assumption.
    rewrite (bigsum_ext k _ (fun i => / INR k * mget P i j)).
    + rewrite bigsum_scal_l. pose proof (Hcol j Hj) as Hc. rewrite_sum Hc. lra.
    + intros i Hi. now rewrite nth_repeat_lt.
  - rewrite (bigsum_ext k _ (fun _ => / INR k)).
    + rewrite bigsum_const. field. lra.
    + intros i Hi. now apply nth_repeat_lt.
Qed.

Section ClosedForms.

Context {la : LinAlg}.

(** X5.  On the two-state chain that leaves state 0 with probability [a] and
    state 1 with probability [b], neither 0 nor both 1, [steady_state]
    returns [b / (a + b), a / (a + b)]. *)
Theorem steady_state_two_state (a b : R) :
  0 < a <= 1 -> 0 < b <= 1 -> a + b < 2 ->
  eig_ok 2 (np_transpose (P_two a b)) ->
  steady_state (P_two a b) = Ok (real_arr [b / (a + b); a / (a + b)]) \/
  steady_state (P_two a b) = Ok (complex_arr [b / (a + b); a / (a + b)]).
Proof.
  intros Ha Hb Hab Heig.
  apply (steady_state_stationary 2 (P_two a b)); auto.
  - apply stochastic_P_two; lra.
  - now apply ergodic_P_two.
  - apply stationary_P_two. lra.
Qed.

(** X6.  On an ergodic matrix whose columns sum to 1 as its rows do,
    [steady_state] returns the uniform distribution: [1/k] in each of the
    [k] entries. *)
Theorem steady_state_doubly_stochastic (k : nat) (P : rmat) :
  (0 < k)%nat -> stochastic k P -> ergodic k P ->
  (forall j, (j < k)%nat -> bigsum k (fun i => mget P i j) = 1) ->
  eig_ok k (np_transpose P) ->
  steady_state P = Ok (real_arr (repeat (/ INR k) k)) \/
  steady_state P = Ok (complex_arr (repeat (/ INR k) k)).
Proof.
  intros Hk Hsto Herg Hcol Heig.
  apply (steady_state_stationary k P); auto.
  now apply stationary_uniform.
Qed.

End ClosedForms.

Lemma eig_ok_P_half : @eig_ok la_half 2 (np_transpose (P_two (1/2) (1/2))).
Proof.
  eexists. split; [reflexivity|]. cbn [eig_values eig_vectors].
  split; [reflexivity|]. split; [is_mat_tac|]. split.
  - intros i Hi. two_cases i Hi; (split; [reflexivity|]); split;
      try (exists 0%nat; split; [lia|]; simpl; unfold RtoC, C0;
           intros E; inversion E; lra);
      intros j Hj; two_cases j Hj; unfold P_two; mat_simpl; complex_lra.
  - intros l Hs.
    destruct (Req_dec_T l 1) as [->|H1]; [now left|].
    destruct (Req_dec_T l 0) as [->|H2]; [right; now left|].
    exfalso. apply Hs.
    exists [[/ 2 * / (1 - l) - / 2 * / l; / 2 * / (1 - l) + / 2 * / l];
            [/ 2 * / (1 - l) + / 2 * / l; / 2 * / (1 - l) - / 2 * / l]].
    split; [is_mat_tac|].
    split; unfold P_two; mat_simpl; lists_field.
Qed.

Lemma steady_state_two_state_witness :
  @steady_state la_half (P_two (1/2) (1/2)) =
    Ok (real_arr [1/2 / (1/2 + 1/2); 1/2 / (1/2 + 1/2)]) \/
  @steady_state la_half (P_two (1/2) (1/2)) =
    Ok (complex_arr [1/2 / (1/2 + 1/2); 1/2 / (1/2 + 1/2)]).
Proof.
  apply (@steady_state_two_state la_half (1/2) (1/2));
    [lra | lra | lra | exact eig_ok_P_half].
Defined.

Lemma steady_state_doubly_stochastic_witness :
  @steady_state la_half (P_two (1/2) (1/2)) =
    Ok (real_arr (repeat (/ INR 2) 2)) \/
  @steady_state la_half (P_two (1/2) (1/2)) =
    Ok (complex_arr (repeat (/ INR 2) 2)).
Proof.
  apply (@steady_state_doubly_stochastic la_half 2 (P_two (1/2) (1/2))).
  - lia.
  - apply stochastic_P_two; lra.
  - apply ergodic_P_two; lra.
  - intros j Hj. two_cases j Hj; unfold mget, P_two; simpl; lra.
  - exact eig_ok_P_half.
Defined.

(** ** The entries of [fmpt] and the divisions by zero *)

Section FmptEntries.

Context {la : LinAlg}.


End FmptEntries.


(** ** Calls in sequence *)

Section Sequence.

Context {la : LinAlg}.

Lemma keeps_steady_state_mem (h : heap) (p : loc) :
  keeps h (snd (steady_state_mem p h)).
Proof. exact (proj1 (safe_steady_state_mem h p h (keeps_refl h))). Qed.

(** X9.  Two calls of [fmpt] in a row on one array compute the same: when
    [fmpt] returns, they return two different new objects that hold the
    same matrix, the first untouched by the second call; when it raises,
    both raise the same error. *)
Theorem fmpt_mem_twice (h : heap) (p : loc) (P : rmat) :
  nth_error h p = Some (CMat P) ->
  match fmpt P with
  | Ok M =>
      exists l1 l2,
        fst (fmpt_mem p h) = Ok l1 /\
        fst (fmpt_mem p (snd (fmpt_mem p h))) = Ok l2 /\
        l1 <> l2 /\
        nth_error (snd (fmpt_mem p (snd (fmpt_mem p h)))) l1 = Some (CFMat M) /\
        nth_error (snd (fmpt_mem p (snd (fmpt_mem p h)))) l2 = Some (CFMat M)
  | Raise e =>
      fst (fmpt_mem p h) = Raise e /\
      fst (fmpt_mem p (snd (fmpt_mem p h))) = Raise e
  end.
Proof.
  intros Hp.
  pose proof (fmpt_mem_value h p P Hp) as V1.
  set (h1 := snd (fmpt_mem p h)) in *.
  assert (K1 : keeps h h1) by apply keeps_fmpt_mem.
  pose proof (fmpt_mem_value h1 p P (keeps_nth_error h h1 p _ K1 Hp)) as V2.
  set (h2 := snd (fmpt_mem p h1)) in *.
  assert (K2 : keeps h1 h2) by apply keeps_fmpt_mem.
  destruct (fmpt P) as [M|e]; [|now split].
  destruct V1 as [l1 [E1 N1]], V2 as [l2 [E2 N2]].
  exists l1, l2. repeat split; try assumption.
  - assert (l1 < length h1)%nat by (apply nth_error_Some; congruence).
    assert (length h1 <= l2)%nat
      by exact (proj2 (safe_fmpt_mem h1 p h1 (keeps_refl h1)) l2 E2).
    lia.
  - exact (keeps_nth_error h1 h2 l1 _ K2 N1).
Qed.

(** X10.  A call of [steady_state] before does not change what [fmpt]
    computes on the same array, and the vector it returned is still there
    after [fmpt]. *)
Theorem steady_state_then_fmpt (h : heap) (p : loc) (P : rmat) (y : ndarray) :
  nth_error h p = Some (CMat P) ->
  steady_state P = Ok y ->
  exists l1,
    fst (steady_state_mem p h) = Ok l1 /\
    nth_error (snd (fmpt_mem p (snd (steady_state_mem p h)))) l1
      = Some (CArr y) /\
    match fmpt P with
    | Ok M =>
        exists l2,
          fst (fmpt_mem p (snd (steady_state_mem p h))) = Ok l2 /\
          nth_error (snd (fmpt_mem p (snd (steady_state_mem p h)))) l2
            = Some (CFMat M)
    | Raise e => fst (fmpt_mem p (snd (steady_state_mem p h))) = Raise e
    end.
Proof.
  intros Hp Hy.
  pose proof (steady_state_mem_value h p P Hp) as V1. rewrite Hy in V1.
  destruct V1 as [l1 [E1 N1]].
  set (h1 := snd (steady_state_mem p h)) in *.
  assert (K1 : keeps h h1) by apply keeps_steady_state_mem.
  pose proof (fmpt_mem_value h1 p P (keeps_nth_error h h1 p _ K1 Hp)) as V2.
  exists l1. split; [assumption|]. split; [|exact V2].
  exact (keeps_nth_error h1 _ l1 _ (keeps_fmpt_mem h1 p) N1).
Qed.

End Sequence.

Lemma fmpt_mem_twice_witness :
  match @fmpt la_one P_one with
  | Ok M =>
      exists l1 l2,
        fst (@fmpt_mem la_one 0%nat [CMat P_one]) = Ok l1 /\
        fst (@fmpt_mem la_one 0%nat
               (snd (@fmpt_mem la_one 0%nat [CMat P_one]))) = Ok l2 /\
        l1 <> l2 /\
        nth_error (snd (@fmpt_mem la_one 0%nat
                          (snd (@fmpt_mem la_one 0%nat [CMat P_one])))) l1
          = Some (CFMat M) /\
        nth_error (snd (@fmpt_mem la_one 0%nat
                          (snd (@fmpt_mem la_one 0%nat [CMat P_one])))) l2
          = Some (CFMat M)
  | Raise e =>
      fst (@fmpt_mem la_one 0%nat [CMat P_one]) = Raise e /\
      fst (@fmpt_mem la_one 0%nat
             (snd (@fmpt_mem la_one 0%nat [CMat P_one]))) = Raise e
  end.
Proof. apply (@fmpt_mem_twice la_one [CMat P_one] 0%nat P_one). reflexivity. Defined.

Lemma steady_state_la_one : @steady_state la_one P_one = Ok (real_arr [1]).
Proof.
  destruct (@steady_state_stationary la_one 1 P_one ltac:(lia) stochastic_P_one
              ergodic_P_one eig_ok_P_one [1] stationary_P_one) as [H|H];
    [exact H|].
  exfalso. unfold steady_state in H. cbn [la_eig la_one replay bind] in H.
  destruct (dominant float64 _ _); discriminate H.
Qed.

Lemma steady_state_then_fmpt_witness :
  exists l1,
    fst (@steady_state_mem la_one 0%nat [CMat P_one]) = Ok l1 /\
    nth_error (snd (@fmpt_mem la_one 0%nat
                      (snd (@steady_state_mem la_one 0%nat [CMat P_one])))) l1
      = Some (CArr (real_arr [1])) /\
    match @fmpt la_one P_one with
    | Ok M =>
        exists l2,
          fst (@fmpt_mem la_one 0%nat
                 (snd (@steady_state_mem la_one 0%nat [CMat P_one]))) = Ok l2 /\
          nth_error (snd (@fmpt_mem la_one 0%nat
                            (snd (@steady_state_mem la_one 0%nat
                                    [CMat P_one])))) l2
            = Some (CFMat M)
    | Raise e =>
        fst (@fmpt_mem la_one 0%nat
               (snd (@steady_state_mem la_one 0%nat [CMat P_one]))) = Raise e
    end.
Proof.
  apply (@steady_state_then_fmpt la_one [CMat P_one] 0%nat P_one
           (real_arr [1])).
  - reflexivity.
  - exact steady_state_la_one.
Defined.

(** ** [fmpt] on the two-state chains *)

Lemma two_spec_mul (a b c q c' q' : R) :
  a + b <> 0 ->
  mmul (two_spec a b c q) (two_spec a b c' q') = two_spec a b (c * c') (q * q').
Proof. intros H. unfold two_spec. mat_simpl. lists_field. Qed.

Lemma two_spec_identity (a b : R) :
  a + b <> 0 -> np_identity 2 = two_spec a b 1 1.
Proof. intros H. unfold two_spec. mat_simpl. lists_field. Qed.

Lemma two_spec_P_two (a b : R) :
  a + b <> 0 -> P_two a b = two_spec a b 1 (1 - a - b).
Proof. intros H. unfold two_spec, P_two. lists_field. Qed.

Lemma is_mat_two_spec (a b c q : R) : is_mat 2 2 (two_spec a b c q).
Proof. is_mat_tac. Qed.

Lemma mpow_P_two (a b : R) (n : nat) :
  a + b <> 0 -> mpow (P_two a b) n = two_spec a b 1 ((1 - a - b) ^ n).
Proof.
  intros H. induction n as [|n IH].
  - simpl. now rewrite <- two_spec_identity.
  - cbn [mpow]. rewrite IH. rewrite (two_spec_P_two a b H) at 1.
    rewrite two_spec_mul by assumption. cbn [pow]. f_equal. lra.
Qed.

Lemma two_fundamental (a b e : R) :
  a + b <> 0 ->
  madd (msub (np_identity 2) (P_two a b)) (two_spec a b 1 e)
  = two_spec a b 1 (a + b + e).
Proof. intros H. unfold two_spec, P_two. mat_simpl. lists_field. Qed.

Lemma two_spec_inverse (a b q : R) :
  a + b <> 0 -> q <> 0 ->
  inverse_of 2 (two_spec a b 1 q) (two_spec a b 1 (/ q)).
Proof.
  intros H Hq. split; [apply is_mat_two_spec|].
  rewrite !two_spec_mul, (two_spec_identity a b) by assumption.
  split; f_equal; field; assumption.
Qed.

Lemma pow_1000_nonneg (x : R) : 0 <= x ^ 1000.
Proof.
  change 1000%nat with (2 * 500)%nat. rewrite pow_sqr.
  apply pow_le. nra.
Qed.

Ltac results_field :=
  lazymatch goal with
  | |- (_ :: _) = (_ :: _) => apply f_equal2; results_field
  | |- Fin _ = Fin _ => apply f_equal; results_field
  | |- Ok _ = Ok _ => apply f_equal; results_field
  | |- _ => first [reflexivity | field; repeat split; lra]
  end.

Section FmptTwoState.

Context {la : LinAlg}.

(** X11.  On the two-state chain that leaves state 0 with probability [a] and
    state 1 with probability [b], both positive, and with
    [e = (1 - a - b) ** 1000], [fmpt] returns 0 on the diagonal,
    [(a + b) / ((a + b + e) (a + e b))] from state 0 to state 1 and
    [(a + b) / ((a + b + e) (b + e a))] from state 1 to state 0: the mean
    passage times [1 / a] and [1 / b] where [e] is 0, and never more than
    them. *)
Theorem fmpt_two_state (a b : R) :
  0 < a -> 0 < b ->
  inv_ok 2 (madd (msub (np_identity 2) (P_two a b)) (mpow (P_two a b) 1000)) ->
  let e := (1 - a - b) ^ 1000 in
  fmpt (P_two a b) =
    Ok [[Fin 0; Fin ((a + b) / ((a + b + e) * (a + e * b)))];
        [Fin ((a + b) / ((a + b + e) * (b + e * a))); Fin 0]] /\
  (a + b) / ((a + b + e) * (a + e * b)) <= 1 / a /\
  (a + b) / ((a + b + e) * (b + e * a)) <= 1 / b.
Proof.
  intros Ha Hb Hinv e.
  assert (He : 0 <= e) by apply pow_1000_nonneg.
  assert (Hab : a + b <> 0) by lra.
  assert (Hq : a + b + e <> 0) by lra.
  assert (Hea : 0 <= e * a) by now apply Rmult_le_pos; lra.
  assert (Heb : 0 <= e * b) by now apply Rmult_le_pos; lra.
  split; [|split].
  - rewrite (fmpt_eq_spec 2 _ (is_mat_P_two a b) Hinv). unfold fmpt_spec.
    cbv zeta. unfold inv_ok in Hinv.
    rewrite (mpow_P_two a b 1000 Hab) in *. fold e in Hinv |- *.
    rewrite two_fundamental in * by assumption.
    change (ncols (two_spec a b 1 e)) with 2%nat.
    destruct (la_inv (two_spec a b 1 (a + b + e))) as [Z|err].
    + rewrite (inverse_unique 2 _ Z _ (is_mat_two_spec _ _ _ _) Hinv
                 (two_spec_inverse a b (a + b + e) Hab Hq)).
      cbn [bind]. unfold mk_mat. cbn [map seq].
      unfold mget, two_spec. cbn [nth]. unfold np_div.
      rewrite !(Reqb_false (1 * (b / (a + b)) + e * (a / (a + b))) 0).
      2:{ intros E. assert (E' : (b + e * a) / (a + b) = 0)
            by (rewrite <- E; field; lra).
          apply Rmult_integral in E'. destruct E' as [E'|E']; [lra|].
          pose proof (Rinv_neq_0_compat (a + b) Hab). contradiction. }
      rewrite !(Reqb_false (1 * (a / (a + b)) + e * (b / (a + b))) 0).
      2:{ intros E. assert (E' : (a + e * b) / (a + b) = 0)
            by (rewrite <- E; field; lra).
          apply Rmult_integral in E'. destruct E' as [E'|E']; [lra|].
          pose proof (Rinv_neq_0_compat (a + b) Hab). contradiction. }
      results_field.
    + exfalso. destruct Hinv as [_ Hs]. apply Hs. eexists.
      now apply two_spec_inverse.
  - apply (Rmult_le_reg_r ((a + b + e) * (a + e * b) * a)).
    + apply Rmult_lt_0_compat; [apply Rmult_lt_0_compat|]; lra.
    + replace ((a + b) / ((a + b + e) * (a + e * b)) *
               ((a + b + e) * (a + e * b) * a)) with ((a + b) * a)
        by (field; lra).
      replace (1 / a * ((a + b + e) * (a + e * b) * a))
        with ((a + b + e) * (a + e * b)) by (field; lra).
      nra.
  - apply (Rmult_le_reg_r ((a + b + e) * (b + e * a) * b)).
    + apply Rmult_lt_0_compat; [apply Rmult_lt_0_compat|]; lra.
    + replace ((a + b) / ((a + b + e) * (b + e * a)) *
               ((a + b + e) * (b + e * a) * b)) with ((a + b) * b)
        by (field; lra).
      replace (1 / b * ((a + b + e) * (b + e * a) * b))
        with ((a + b + e) * (b + e * a)) by (field; lra).
      nra.
Qed.

End FmptTwoState.

Lemma inv_ok_P_half :
  @inv_ok la_half 2
    (madd (msub (np_identity 2) (P_two (1/2) (1/2)))
          (mpow (P_two (1/2) (1/2)) 1000)).
Proof.
  unfold inv_ok. cbn [la_inv la_half replay].
  rewrite mpow_P_two by lra.
  replace (1 - 1/2 - 1/2) with 0 by lra. rewrite pow_i by lia.
  split; [is_mat_tac|].
  split; unfold two_spec, P_two, I_2; mat_simpl; lists_lra.
Qed.

Lemma fmpt_two_state_witness :
  let e := (1 - 1/2 - 1/2) ^ 1000 in
  @fmpt la_half (P_two (1/2) (1/2)) =
    Ok [[Fin 0; Fin ((1/2 + 1/2) / ((1/2 + 1/2 + e) * (1/2 + e * (1/2))))];
        [Fin ((1/2 + 1/2) / ((1/2 + 1/2 + e) * (1/2 + e * (1/2)))); Fin 0]] /\
  (1/2 + 1/2) / ((1/2 + 1/2 + e) * (1/2 + e * (1/2))) <= 1 / (1/2) /\
  (1/2 + 1/2) / ((1/2 + 1/2 + e) * (1/2 + e * (1/2))) <= 1 / (1/2).
Proof.
  apply (@fmpt_two_state la_half (1/2) (1/2)); [lra | lra | exact inv_ok_P_half].
Defined.

(** ** [steady_state] returns *)

Lemma selected_returns {T V : Type} (dt : dtype T V) (emb : T -> C)
    (k : nat) (v : list T) (d : matrix T) :
  (forall x y, dt_eqb dt x y = Ceqb (emb x) (emb y)) ->
  (0 < k)%nat -> length v = k -> is_mat k k d ->
  exists x, selected dt v d = Ok x.
Proof.
  intros Heqb Hk Hv Hd. unfold selected.
  destruct v as [|x0 t] eqn:Ev; [simpl in Hv; lia|]. rewrite <- Ev in *.
  assert (Hmax : exists mv, py_max dt v = Ok mv)
    by (rewrite Ev; eexists; reflexivity).
  destruct Hmax as [mv Hmax]. rewrite Hmax. cbn [bind].
  destruct (py_index_found dt emb Heqb v mv (py_max_In dt v mv Hmax))
    as [i [Hidx [Hi _]]].
  rewrite Hidx. cbn [bind]. rewrite Hv in Hi.
  rewrite (np_col_rows k d i (dt_zero dt) (proj2 Hd) Hi). eexists. reflexivity.
Qed.

Section Returns.

Context {la : LinAlg}.

(** X12.  [steady_state] checks nothing and, past the eigen-solver, raises
    nothing: on any square matrix with at least one row, stochastic or not,
    on which [numpy.linalg.eig] keeps its contract, it returns an array. *)
Theorem steady_state_returns (k : nat) (P : rmat) :
  (0 < k)%nat -> eig_ok k (np_transpose P) ->
  exists y, steady_state P = Ok y.
Proof.
  intros Hk [r [Hr [Hlen [Hd _]]]]. unfold steady_state. rewrite Hr.
  cbn [bind]. unfold dominant.
  destruct r as [v d | v d]; cbn [eig_values eig_vectors] in *.
  - rewrite length_map in Hlen. apply is_mat_map_inv in Hd.
    destruct (selected_returns float64 RtoC k v d RtoC_eqb Hk Hlen Hd)
      as [x ->].
    cbn [bind]. eexists. reflexivity.
  - destruct (selected_returns complex128 (fun z => z) k v d
                (fun _ _ => eq_refl) Hk Hlen Hd) as [x ->].
    cbn [bind]. eexists. reflexivity.
Qed.

End Returns.

Lemma steady_state_returns_witness :
  exists y, @steady_state la_alt P_alt = Ok y.
Proof.
  apply (@steady_state_returns la_alt 2 P_alt); [lia | exact eig_ok_P_alt].
Defined.
